(** * lightshow: an audio-reactive RGB LED driver

    A shallow embedding of [lightshow.py] and the properties of its per-block
    pipeline.  Python floats are idealised as exact rationals ([Q]); Python
    ints are [Z].  The two numpy routines whose values are not rational
    ([np.hanning] and [np.abs(np.fft.rfft(.))]) are parameters of the
    pipeline; everything else is executable.  Where the program can raise
    because a number is too large for a float or for a machine word, the
    error is part of the model. *)

From Stdlib Require Import ZArith QArith Qround Qabs Qminmax Qpower Lqa Ascii String Bool Lia List.
Import ListNotations.
Open Scope Q_scope.

(** ** Python builtins *)

Module Py.

Definition Qltb (x y : Q) : bool := negb (Qle_bool y x).

(** [min(a, b)] returns [a] unless [b < a]. *)
Definition min (a b : Q) : Q := if Qltb b a then b else a.

(** [max(a, b)] returns [a] unless [b > a]. *)
Definition max (a b : Q) : Q := if Qltb a b then b else a.

(** [int(x)] on a float: truncation toward zero. *)
Definition int (x : Q) : Z := Z.quot (Qnum x) (Zpos (Qden x)).

(** Truthiness of a float: non-zero. *)
Definition truthy (x : Q) : bool := negb (Qeq_bool x 0).

(** [any(xs)] *)
Definition any (xs : list Q) : bool := existsb truthy xs.

(** [n * s] for an int [n] and a str [s]; empty when [n <= 0]. *)
Fixpoint str_repeat (n : nat) (s : string) : string :=
  match n with
  | O => EmptyString
  | S n' => (s ++ str_repeat n' s)%string
  end.

End Py.

(** ** Exceptions and effects *)

Inductive exn : Type :=
| Exception (kind msg : string)   (* an instance of a subclass of Exception *)
| KeyboardInterrupt
| SystemExit (status : string).

(** Errors raised inside numpy, inside [int] on text, and so inside
    [callback] or the colour helpers.  Their text varies with the site and
    is not tracked: nothing the program prints shows it. *)
Definition IndexError : exn := Exception "IndexError" "index out of bounds".
Definition ValueError : exn := Exception "ValueError" "invalid value".

(** Errors of the main thread, with the text the handler on line 216 would
    print. *)
Definition ZeroDivisionError : exn :=
  Exception "ZeroDivisionError" "float division by zero".
Definition maxlen_negative : exn :=
  Exception "ValueError" "maxlen must be non-negative".
Definition ssize_overflow : exn :=
  Exception "OverflowError" "Python int too large to convert to C ssize_t".
Definition division_overflow : exn :=
  Exception "OverflowError" "integer division result too large for a float".
Definition float_infinity : exn :=
  Exception "OverflowError" "cannot convert float infinity to integer".

(** What the program does to the outside world, in order. *)
Inductive event : Type :=
| set_PWM_dutycycle (pin : Z) (dutycycle : Q)  (* pi.set_PWM_dutycycle *)
| print (text : string)                        (* print(text) *)
| print_sampling (rate : Q)                    (* print('Sampling at %s Hz' % rate) *)
| print_devices                                (* print(sd.query_devices()) *)
| print_banner (text : string)                 (* text.center(columns, '#'), coloured *)
| usage_error (message : string)               (* parser.error: usage and message, on stderr *)
| exit_ (status : string).                     (* the process ends with this status *)

Definition is_pwm (e : event) : bool :=
  match e with set_PWM_dutycycle _ _ => true | _ => false end.

(** The actuator calls of a trace. *)
Definition pwm_calls (t : list event) : list event := filter is_pwm t.

(** ** collections.deque with a maxlen *)

Record deque : Type := mkDeque { items : list Q; maxlen : nat }.

Definition deque_append (d : deque) (x : Q) : deque :=
  match maxlen d with
  | O => d
  | S _ =>
      if (length (items d) <? maxlen d)%nat
      then mkDeque (items d ++ [x]) (maxlen d)
      else mkDeque (tl (items d) ++ [x]) (maxlen d)
  end.

Definition deque_clear (d : deque) : deque := mkDeque [] (maxlen d).

(** The largest [Py_ssize_t], on a 64-bit build. *)
Definition SSIZE_MAX : Z := 2 ^ 63 - 1.

(** [deque(init, maxlen=n)]: [n] is first converted to a [Py_ssize_t],
    which raises OverflowError when it does not fit; a negative [n] that
    fits raises ValueError. *)
Definition deque_new (init : list Q) (n : Z) : exn + deque :=
  if ((n <? - SSIZE_MAX - 1) || (SSIZE_MAX <? n))%Z then inl ssize_overflow
  else if (n <? 0)%Z then inl maxlen_negative
  else inr (fold_left deque_append init (mkDeque [] (Z.to_nat n))).

(** ** numpy *)

Module np.

Fixpoint insert (x : Q) (l : list Q) : list Q :=
  match l with
  | [] => [x]
  | y :: l' => if Qle_bool x y then x :: l else y :: insert x l'
  end.

Definition sort (l : list Q) : list Q := fold_right insert [] l.

(** [np.sum] *)
Definition sum (l : list Q) : Q := fold_right Qplus 0 l.

(** [a * b] on arrays of one length *)
Fixpoint mul (a b : list Q) : list Q :=
  match a, b with
  | x :: a', y :: b' => x * y :: mul a' b'
  | _, _ => []
  end.

(** [np.arange(lo, hi)] *)
Definition arange (lo hi : Z) : list Q :=
  map (fun k => inject_Z (lo + Z.of_nat k)) (seq 0 (Z.to_nat (hi - lo))).

(** [np.where(mask)]: the indices at which the mask holds. *)
Fixpoint where_from (i : nat) (mask : list bool) : list nat :=
  match mask with
  | [] => []
  | m :: mask' => if m then i :: where_from (S i) mask' else where_from (S i) mask'
  end.

Definition where_ (mask : list bool) : list nat := where_from 0 mask.

(** [a[idx]] for an index array: IndexError on an index past the end. *)
Fixpoint take (a : list Q) (idx : list nat) : exn + list Q :=
  match idx with
  | [] => inr []
  | i :: idx' =>
      match nth_error a i with
      | None => inl IndexError
      | Some x =>
          match take a idx' with
          | inl e => inl e
          | inr xs => inr (x :: xs)
          end
      end
  end.

(** [np.max]: ValueError on an empty array. *)
Definition max (a : list Q) : exn + Q :=
  match a with
  | [] => inl ValueError
  | x :: a' => inr (fold_left Py.max a' x)
  end.

(** [np.fft.fftfreq(n, d)]: [0, 1, .., (n-1)/2, -(n/2), .., -1] / (d*n). *)
Definition fftfreq (n : nat) (d : Q) : list Q :=
  let val := 1 / (inject_Z (Z.of_nat n) * d) in
  let pos := map (fun k => inject_Z (Z.of_nat k)) (seq 0 ((n - 1) / 2 + 1)) in
  let neg := map (fun k => inject_Z (Z.of_nat k - Z.of_nat (n / 2))) (seq 0 (n / 2)) in
  map (fun k => k * val) (pos ++ neg).

(** [np.percentile(a, q)], linear interpolation between the two closest
    ranks.  A [q] outside [0, 100] raises ValueError.  On an empty array
    numpy has no value to give (IndexError, or nan in later releases); the
    model raises. *)
Definition percentile (a : list Q) (q : Q) : exn + Q :=
  if negb (Qle_bool 0 q && Qle_bool q 100) then inl ValueError
  else
    match sort a with
    | [] => inl IndexError
    | (x0 :: _) as s =>
        let n := length s in
        let virt := inject_Z (Z.of_nat (n - 1)) * (q / 100) in
        let lo := Z.to_nat (Qfloor virt) in
        let hi := Nat.min (S lo) (n - 1) in
        let gamma := virt - inject_Z (Z.of_nat lo) in
        let a_lo := nth lo s x0 in
        let a_hi := nth hi s x0 in
        inr (a_lo + (a_hi - a_lo) * gamma)
    end.

Definition mean (a : list Q) : Q := sum a / inject_Z (Z.of_nat (length a)).

(** The population variance, [np.var]. *)
Definition var (a : list Q) : Q :=
  let m := mean a in mean (map (fun x => (x - m) * (x - m)) a).

(** [np.std(a) < t] for a threshold [t > 0].  [np.std] is the square root
    of [np.var]; the rationals have no square root, so the comparison is
    made on the squares.  On an empty array numpy yields nan, which
    compares false. *)
Definition std_lt (a : list Q) (t : Q) : bool :=
  match a with
  | [] => false
  | _ => Py.Qltb (var a) (t * t)
  end.

(** [np.average(a, weights=w)]: ZeroDivisionError when the weights sum to 0. *)
Definition average (a w : list Q) : exn + Q :=
  let scl := sum w in
  if Qeq_bool scl 0 then inl ZeroDivisionError
  else inr (sum (mul a w) / scl).

End np.

(** ** Numbers that are an int or a float

    argparse converts what the command line gives (with [type=float]) and
    leaves a default as it is written, so [args.gain] is the int 10 unless
    [--gain] is given.  The interactive loop computes with it, and the two
    kinds differ there: an int is doubled without bound, and halving one is
    a true division, whose result must fit a float. *)

Inductive number : Type :=
| PyInt (n : Z)
| PyFloat (x : Q).

(** The least magnitude that rounds to no double: [2^1024 - 2^970], half
    way between the largest double and [2^1024]. *)
Definition FLOAT_LIMIT : Q := inject_Z (2 ^ 1024 - 2 ^ 970).

(** [x * 2].  An int stays an int, of any size.  A float that outgrows the
    doubles becomes an infinity and raises nothing, then or later: the
    model keeps its exact value, which nothing reads. *)
Definition number_double (x : number) : number :=
  match x with
  | PyInt n => PyInt (n * 2)
  | PyFloat q => PyFloat (q * 2)
  end.

(** [x / 2]: always a float.  On an int it is the quotient rounded to the
    nearest double, and OverflowError when that is no double.  A float is
    halved without an error. *)
Definition number_halve (x : number) : exn + number :=
  match x with
  | PyInt n =>
      if Qle_bool FLOAT_LIMIT (Qabs (inject_Z n / 2)) then inl division_overflow
      else inr (PyFloat (inject_Z n / 2))
  | PyFloat q => inr (PyFloat (q / 2))
  end.

(** ** Program state and the effect monad *)

(** The command line, as argparse hands it over. *)
Record Args : Type := mkArgs {
  list_devices : bool;
  block_duration : Q;
  color : Z * Z * Z;
  gain : number;
  range : Q * Q;
  fade : bool }.

Definition default_args : Args :=
  mkArgs false 25 (255, 0, 0)%Z (PyInt 10) (0, 200) false.

(** The process-wide mutable variables. *)
Record State : Type := mkState {
  r : Z; g : Z; b : Z;        (* global r, g, b *)
  args_gain : number;         (* args.gain *)
  prev_amps : deque;
  norm_amps : deque;
  noise_thresh : Q }.

Definition set_rgb (s : State) (c : Z * Z * Z) : State :=
  let '(r', g', b') := c in
  mkState r' g' b' (args_gain s) (prev_amps s) (norm_amps s) (noise_thresh s).
Definition set_gain (s : State) (x : number) : State :=
  mkState (r s) (g s) (b s) x (prev_amps s) (norm_amps s) (noise_thresh s).
Definition set_prev_amps (s : State) (d : deque) : State :=
  mkState (r s) (g s) (b s) (args_gain s) d (norm_amps s) (noise_thresh s).
Definition set_norm_amps (s : State) (d : deque) : State :=
  mkState (r s) (g s) (b s) (args_gain s) (prev_amps s) d (noise_thresh s).
Definition set_noise_thresh (s : State) (x : Q) : State :=
  mkState (r s) (g s) (b s) (args_gain s) (prev_amps s) (norm_amps s) x.

(** A computation reads and writes the state, emits events, and either
    returns or raises; the state and the events emitted up to a raise are
    kept. *)
Definition M (A : Type) : Type := State -> (exn + A) * State * list event.

Definition ret {A} (a : A) : M A := fun s => (inr a, s, []).

Definition bind {A B} (m : M A) (k : A -> M B) : M B :=
  fun s =>
    let '(ra, s1, o1) := m s in
    match ra with
    | inl e => (inl e, s1, o1)
    | inr a => let '(rb, s2, o2) := k a s1 in (rb, s2, o1 ++ o2)
    end.

Definition raise {A} (e : exn) : M A := fun s => (inl e, s, []).
Definition lift {A} (x : exn + A) : M A := fun s => (x, s, []).
Definition get {A} (f : State -> A) : M A := fun s => (inr (f s), s, []).
Definition modify (f : State -> State) : M unit := fun s => (inr tt, f s, []).
Definition emit (e : event) : M unit := fun s => (inr tt, s, [e]).
Definition when (c : bool) (m : M unit) : M unit := if c then m else ret tt.

Declare Scope prog_scope.
Delimit Scope prog_scope with prog.
Notation "x <- m ;; k" := (bind m (fun x => k))
  (at level 61, m at next level, right associativity) : prog_scope.
Notation "m ;; k" := (bind m (fun _ => k))
  (at level 61, right associativity) : prog_scope.

(** Sequencing of fallible pure steps. *)
Definition ebind {A B} (x : exn + A) (k : A -> exn + B) : exn + B :=
  match x with inl e => inl e | inr a => k a end.

(** Python's float [x / y]. *)
Definition py_div (x y : Q) : exn + Q :=
  if Qeq_bool y 0 then inl ZeroDivisionError else inr (x / y).

(** [int(x)] on a float that a division gave.  The quotient is an infinity
    when its magnitude reaches [FLOAT_LIMIT], and [int] raises OverflowError
    on an infinity. *)
Definition int_of_quotient (x : Q) : exn + Z :=
  if Qle_bool FLOAT_LIMIT (Qabs x) then inl float_infinity
  else inr (Py.int x).

(** ** The output driver *)

Definition RED_PIN : Z := 16.
Definition GREEN_PIN : Z := 20.
Definition BLUE_PIN : Z := 21.

Definition setLights (pin : Z) (brightness : Q) : M unit :=
  if Py.Qltb 255 brightness then ret tt
  else emit (set_PWM_dutycycle pin brightness).

Definition reset_lights : M unit :=
  (setLights RED_PIN 0 ;;
   setLights GREEN_PIN 0 ;;
   setLights BLUE_PIN 0)%prog.

(** ** Normalisation and the perceptual curve *)

Definition eps : Q := 1 # 1000000000.   (* 1e-9 *)

Definition bounded (x l h : Q) : Q := Py.max l (Py.min h x).

Definition normalize (val : Q) (prev_vals : list Q) (margin : Q) : exn + Q :=
  ebind (np.percentile prev_vals (100 - margin)) (fun val_max =>
  ebind (np.percentile prev_vals (margin * 2)) (fun val_min =>
  let val_normed := (val - val_min) / Py.max eps (val_max - val_min) in
  inr (bounded val_normed 0 1))).

Definition curved_norm (val : Q) (prev_vals : list Q) (margin : Q) : exn + Q :=
  ebind (normalize val prev_vals margin) (fun norm =>
  inr (bounded ((norm + (1 # 10)) ^ 6) 0 1)).

(** ** The colour state *)

Definition updateColor (color step : Z) : Z :=
  let color := (color + step)%Z in
  if (color >? 255)%Z then 255%Z
  else if (color <? 0)%Z then 0%Z
  else color.

(** [fadeStep] on the triple of globals. *)
Definition fadeStep (steps : Z) (c : Z * Z * Z) : Z * Z * Z :=
  let '(r, g, b) := c in
  if ((r =? 255) && (b =? 0) && (g <? 255))%Z then (r, updateColor g steps, b)
  else if ((g =? 255) && (b =? 0) && (r >? 0))%Z then (updateColor r (- steps), g, b)
  else if ((r =? 0) && (g =? 255) && (b <? 255))%Z then (r, g, updateColor b steps)
  else if ((r =? 0) && (b =? 255) && (g >? 0))%Z then (r, updateColor g (- steps), b)
  else if ((g =? 0) && (b =? 255) && (r <? 255))%Z then (updateColor r steps, g, b)
  else if ((r =? 255) && (g =? 0) && (b >? 0))%Z then (r, g, updateColor b (- steps))
  else c.

Definition rgb (s : State) : Z * Z * Z := (r s, g s, b s).

(** ** The per-block pipeline and the program *)

(** What the outside world feeds the running program, in order of arrival. *)
Inductive input : Type :=
| Block (indata : list Q) (status : option string)
    (* the audio service calls [callback]; [status] is [str(status)] when a
       flag is set *)
| Line (response : string)     (* [input()] returns a line *)
| Interrupt                    (* [input()] raises KeyboardInterrupt *)
| Fault (kind msg : string).   (* an Exception is raised in the main thread *)

Definition usage_line : string :=
  " press <enter> to quit, +<enter> or -<enter> to change scaling ".

Definition norm_duration : Q := 10000.
Definition delay : Q := 300.

(** [int(len(a)/2)] *)
Definition half_len {A} (a : list A) : nat :=
  Z.to_nat (Py.int (inject_Z (Z.of_nat (length a)) / 2)).

Section Lightshow.

Variable args : Args.
(** [sd.query_devices(args.device, 'input')['default_samplerate']] *)
Variable samplerate : Q.
(** [np.hanning] and [np.abs(np.fft.rfft(.))] *)
Variable hanning : nat -> list Q.
Variable rfft_abs : list Q -> list Q.

Definition low : Q := fst (range args).
Definition high : Q := snd (range args).

(** Lines 161-171 of [callback]: the summed magnitude of the band. *)
Definition band_amplitude (indata : list Q) : exn + Q :=
  let data := indata in
  let data := np.mul data (hanning (length data)) in
  let spectrum := rfft_abs data in
  ebind (py_div 1 samplerate) (fun d =>
  let freq := np.fftfreq (length data) d in
  let spectrum := firstn (half_len spectrum) spectrum in
  let freq := firstn (half_len freq) freq in
  ebind (np.take spectrum
           (np.where_ (map (fun f => Qle_bool low f && Py.Qltb f high) freq)))
        (fun band =>
  ebind (np.max spectrum) (fun peak =>
  ebind (np.take freq (np.where_ (map (fun x => Qeq_bool x peak) spectrum)))
        (fun freqPeak =>
  let amp := np.sum band in
  inr amp)))).

(** Lines 177-189 of [callback]: the brightness sample, silence detection,
    smoothing and output for the adjusted amplitude [amp]. *)
Definition drive (amp : Q) : M unit :=
  (pa <- get prev_amps ;;
   c <- lift (curved_norm amp (items pa) 10) ;;
   modify (fun s => set_norm_amps s (deque_append (norm_amps s) c)) ;;
   pa <- get prev_amps ;;
   when (np.std_lt (items pa) 1)
     (modify (fun s => set_norm_amps s (deque_clear (norm_amps s))) ;;
      modify (fun s => set_norm_amps s (deque_append (norm_amps s) 0))) ;;
   na <- get norm_amps ;;
   bright <- lift (np.average (items na)
                     (np.arange 1 (Z.of_nat (length (items na)) + 1))) ;;
   r' <- get r ;; setLights RED_PIN (inject_Z r' * bright) ;;
   g' <- get g ;; setLights GREEN_PIN (inject_Z g' * bright) ;;
   b' <- get b ;; setLights BLUE_PIN (inject_Z b' * bright) ;;
   emit (print (Py.str_repeat (Z.to_nat (Py.int (amp / 10))) "-")))%prog.

Definition callback (indata : list Q) (status : option string) : M unit :=
  (when (fade args) (modify (fun s => set_rgb s (fadeStep 1 (rgb s)))) ;;
   match status with
   | Some text => emit (print_banner (" " ++ text ++ " "))
   | None => ret tt
   end ;;
   if Py.any indata then
     amp <- lift (band_amplitude indata) ;;
     modify (fun s => set_noise_thresh s (Py.min amp (noise_thresh s))) ;;
     nt <- get noise_thresh ;;
     let amp := Py.max eps (amp - nt) in
     modify (fun s => set_prev_amps s (deque_append (prev_amps s) amp)) ;;
     drive amp
   else
     emit (print "no input"))%prog.

(** The body of the interactive loop's [for ch in response]. *)
Fixpoint adjust_gain (response : string) : M unit :=
  match response with
  | EmptyString => ret tt
  | String ch rest =>
      if Ascii.eqb ch "+"%char then
        (modify (fun s => set_gain s (number_double (args_gain s))) ;;
         adjust_gain rest)%prog
      else if Ascii.eqb ch "-"%char then
        (x <- get args_gain ;;
         x <- lift (number_halve x) ;;
         modify (fun s => set_gain s x) ;;
         adjust_gain rest)%prog
      else emit (print_banner usage_line)
  end.

Definition quits (response : string) : bool :=
  String.eqb response "" || String.eqb response "q" || String.eqb response "Q".

(** The open stream: the audio thread runs [callback] on every block, the
    main thread sits in [while True: response = input()].  An exception
    raised inside [callback] does not reach the main thread: the audio
    service aborts the stream, and no later block is delivered.  When the
    input runs out, [input()] raises EOFError. *)
Fixpoint stream (active : bool) (inputs : list input) : M unit :=
  match inputs with
  | [] => raise (Exception "EOFError" "EOF when reading a line")
  | Block indata status :: rest =>
      if active then
        fun s =>
          let '(res, s1, o1) := callback indata status s in
          let '(res2, s2, o2) :=
            stream (match res with inl _ => false | inr _ => true end) rest s1 in
          (res2, s2, o1 ++ o2)
      else stream false rest
  | Line response :: rest =>
      if quits response then ret tt
      else (adjust_gain response ;; stream active rest)%prog
  | Interrupt :: _ => raise KeyboardInterrupt
  | Fault kind msg :: _ => raise (Exception kind msg)
  end.

(** Lines 59-62: the colour, before the [try].  The other globals are
    bound by [setup]; nothing reads them earlier. *)
Definition boot : State :=
  let '(r0, g0, b0) := if fade args then (255, 0, 0)%Z else color args in
  mkState r0 g0 b0 (gain args) (mkDeque [] 0) (mkDeque [] 0) 0.

(** Lines 138-151. *)
Definition setup : M unit :=
  (emit (print_sampling samplerate) ;;
   n <- lift (py_div norm_duration (block_duration args)) ;;
   n <- lift (int_of_quotient n) ;;
   d <- lift (deque_new [eps] n) ;;
   modify (fun s => set_prev_amps s d) ;;
   m <- lift (py_div delay (block_duration args)) ;;
   m <- lift (int_of_quotient m) ;;
   d <- lift (deque_new [] (Z.max 1 m)) ;;
   modify (fun s => set_norm_amps s d) ;;
   modify (fun s => set_noise_thresh s 1000000000))%prog.

(** [parser.exit(status)] is [sys.exit(status)]: it raises SystemExit. *)
Definition parser_exit (status : string) : M unit := raise (SystemExit status).

(** The [try] block, lines 132-211. *)
Definition try_body (inputs : list input) : M unit :=
  if list_devices args then
    (emit print_devices ;;
     parser_exit "0")%prog
  else
    (setup ;;
     emit (print "Starting the lightshow...") ;;
     stream true inputs ;;
     reset_lights)%prog.

(** The handlers, lines 212-216.  SystemExit is not an Exception and
    passes through. *)
Definition handler (e : exn) : M unit :=
  match e with
  | KeyboardInterrupt =>
      (parser_exit "Interrupted by user" ;;
       reset_lights)%prog
  | Exception kind msg => parser_exit (kind ++ ": " ++ msg)
  | SystemExit status => raise e
  end.

Definition try_except (m : M unit) : M unit :=
  fun s =>
    let '(res, s1, o1) := m s in
    match res with
    | inr _ => (res, s1, o1)
    | inl e => let '(res2, s2, o2) := handler e s1 in (res2, s2, o1 ++ o2)
    end.

(** How the interpreter ends the process. *)
Definition exit_event (res : exn + unit) : event :=
  match res with
  | inr _ => exit_ "0"
  | inl (SystemExit status) => exit_ status
  | inl (Exception kind msg) => exit_ (kind ++ ": " ++ msg)
  | inl KeyboardInterrupt => exit_ "KeyboardInterrupt"
  end.

(** The whole program: everything it does, given all it is fed.  Lines
    48-50 come first: [parser.error] writes the usage and its message and
    exits with status 2. *)
Definition main (inputs : list input) : list event :=
  if Qle_bool high low
  then [usage_error "HIGH must be greater than LOW"; exit_ "2"]
  else
    let '(res, _, o) := try_except (try_body inputs) boot in
    o ++ [exit_event res].

End Lightshow.

(** ** Colours from numbers (lines 57 and 89-98)

    Text is ASCII: a [string] is the list of its characters. *)

Definition HEX_MAX : Z := 16777215.

(** The digit of a value below 16, as [format(.., 'x')] writes it. *)
Definition hex_digit (d : Z) : ascii :=
  match d with
  | 0 => "0" | 1 => "1" | 2 => "2" | 3 => "3" | 4 => "4" | 5 => "5"
  | 6 => "6" | 7 => "7" | 8 => "8" | 9 => "9" | 10 => "a" | 11 => "b"
  | 12 => "c" | 13 => "d" | 14 => "e" | _ => "f"
  end%Z%char.

(** The hexadecimal digits of [n >= 0], most significant first, without
    leading zeros; [fuel] bounds their number. *)
Fixpoint hex_of (fuel : nat) (n : Z) : string :=
  match fuel with
  | O => EmptyString
  | S fuel' =>
      if (n <? 16)%Z then String (hex_digit n) EmptyString
      else (hex_of fuel' (n / 16) ++ String (hex_digit (n mod 16)) EmptyString)%string
  end.

(** [s * n] for a one-character [s]. *)
Fixpoint padding (c : ascii) (n : nat) : string :=
  match n with
  | O => EmptyString
  | S n' => String c (padding c n')
  end.

(** ['{0:06x}'.format(i)]: lower-case hexadecimal, the sign first when [i]
    is negative, zeros after the sign up to a width of 6. *)
Definition int_to_hex (i : Z) : string :=
  let sign := if (i <? 0)%Z then String "-" EmptyString else EmptyString in
  let digits := hex_of (S (Z.to_nat (Z.log2 (Z.abs i)))) (Z.abs i) in
  (sign ++ padding "0" (6 - String.length sign - String.length digits)
   ++ digits)%string.

(** [Py_ISSPACE]: blank, tab, newline, vertical tab, form feed, return. *)
Definition is_space (c : ascii) : bool :=
  let n := nat_of_ascii c in
  ((n =? 32) || ((9 <=? n) && (n <=? 13)))%nat.

(** The value of a character as a digit: [0-9], then [a-z] and [A-Z] from
    10. *)
Definition digit_value (c : ascii) : option Z :=
  let n := Z.of_nat (nat_of_ascii c) in
  (if (48 <=? n) && (n <=? 57) then Some (n - 48)
   else if (97 <=? n) && (n <=? 122) then Some (n - 87)
   else if (65 <=? n) && (n <=? 90) then Some (n - 55)
   else None)%Z.

Fixpoint lstrip (s : string) : string :=
  match s with
  | String c rest => if is_space c then lstrip rest else s
  | EmptyString => s
  end.

(** The digits of a literal, single underscores allowed between them: the
    value, the number of digits, and what follows them; [None] on a doubled
    or trailing underscore. *)
Fixpoint scan_digits (base : Z) (s : string) (acc : Z) (prev_underscore : bool)
    (ndigits : nat) : option (Z * nat * string) :=
  let stop := if prev_underscore then None else Some (acc, ndigits, s) in
  match s with
  | EmptyString => stop
  | String c rest =>
      if Ascii.eqb c "_" then
        if prev_underscore then None
        else scan_digits base rest acc true ndigits
      else
        match digit_value c with
        | Some d =>
            if (d <? base)%Z
            then scan_digits base rest (acc * base + d) false (S ndigits)
            else stop
        | None => stop
        end
  end.

(** [int(s, base)] for base 10 or 16: blanks around, a sign, for base 16 a
    [0x] or [0X] prefix with one underscore allowed after it, then the
    digits.  ValueError on anything else. *)
Definition int_of_str (s : string) (base : Z) : exn + Z :=
  let s := lstrip s in
  let '(sign, s) :=
    match s with
    | String "+" rest => (1, rest)
    | String "-" rest => (-1, rest)
    | _ => (1, s)
    end%Z%char in
  let s :=
    if (base =? 16)%Z then
      match s with
      | String "0" (String x rest) =>
          if (Ascii.eqb x "x" || Ascii.eqb x "X")%bool then
            match rest with
            | String "_" rest' => rest'
            | _ => rest
            end
          else s
      | _ => s
      end%char
    else s in
  match s with
  | String "_"%char _ => inl ValueError
  | _ =>
      match scan_digits base s 0 false 0 with
      | None => inl ValueError
      | Some (v, ndigits, rest) =>
          match ndigits, lstrip rest with
          | S _, EmptyString => inr (sign * v)%Z
          | _, _ => inl ValueError
          end
      end
  end.

(** [h[i:i+2]] *)
Definition slice2 (h : string) (i : nat) : string := substring i 2 h.

Definition hex_to_rgb (h : string) : exn + Z * Z * Z :=
  ebind (int_of_str (slice2 h 0) 16) (fun r0 =>
  ebind (int_of_str (slice2 h 2) 16) (fun g0 =>
  ebind (int_of_str (slice2 h 4) 16) (fun b0 =>
  inr (r0, g0, b0)))).

Section Colour.

(** [x * y] on floats: the double nearest the product, and [None] when the
    product overflows to an infinity. *)
Variable fmul : Q -> Q -> option Q.

(** [norm] is a float.  [int] raises OverflowError on an infinity. *)
Definition norm_to_rgb (norm : Q) : exn + Z * Z * Z :=
  match fmul norm (inject_Z HEX_MAX) with
  | None => inl float_infinity
  | Some x =>
      let i := Py.int x in
      let h := int_to_hex i in
      hex_to_rgb h
  end.

End Colour.

(** ** Notions used to state the properties *)

(** The clamp of the specification: [x] pulled into [[lo, hi]]. *)
Definition clamp (x lo hi : Q) : Q :=
  if Qlt_le_dec x lo then lo else if Qlt_le_dec hi x then hi else x.

(** [n] block advances of the colour in fade mode. *)
Definition fade_iter (n : nat) (c : Z * Z * Z) : Z * Z * Z :=
  Nat.iter n (fadeStep 1) c.

Definition channel_ok (x : Z) : Prop := (0 <= x <= 255)%Z.

Definition rgb_ok (c : Z * Z * Z) : Prop :=
  let '(r, g, b) := c in channel_ok r /\ channel_ok g /\ channel_ok b.


(** Two states that differ at most in the gain. *)
Definition same_but_gain (s1 s2 : State) : Prop :=
  rgb s1 = rgb s2 /\ prev_amps s1 = prev_amps s2 /\
  norm_amps s1 = norm_amps s2 /\ noise_thresh s1 = noise_thresh s2.

(** A line of only [+] and [-], at least one: it rescales the gain and
    nothing else. *)
Fixpoint plus_minus (response : string) : bool :=
  match response with
  | EmptyString => true
  | String ch rest =>
      (Ascii.eqb ch "+"%char || Ascii.eqb ch "-"%char) && plus_minus rest
  end.


(** The colour wheel in closed form: where [k] advances from red lead to, for
    [0 <= k <= 1530].  Six edges of 255 steps: red to yellow, to green, to
    cyan, to blue, to magenta, and back to red. *)
Definition wheel (k : Z) : Z * Z * Z :=
  (if k <=? 255 then (255, k, 0)
   else if k <=? 510 then (510 - k, 255, 0)
   else if k <=? 765 then (0, 255, k - 510)
   else if k <=? 1020 then (0, 1020 - k, 255)
   else if k <=? 1275 then (k - 1020, 0, 255)
   else (255, 0, 1530 - k))%Z.

Definition red : Z * Z * Z := (255, 0, 0)%Z.

(** Stand-ins for the two numpy parameters, to run the pipeline on concrete
    blocks: a flat window, and a spectrum of the right length. *)
Definition flat_window (n : nat) : list Q := repeat 1 n.

Definition abs_spectrum (d : list Q) : list Q :=
  firstn (length d / 2 + 1) (map Qabs d ++ repeat 0 (S (length d))).

(** The globals once [setup] has run on the default command line. *)
Definition idle_state : State :=
  mkState 255 0 0 (PyInt 10) (mkDeque [eps] 400) (mkDeque [] 12) 1000000000.

(** ** The outcome of a computation *)

Definition res_of {A} (x : (exn + A) * State * list event) : exn + A :=
  fst (fst x).
Definition state_of {A} (x : (exn + A) * State * list event) : State :=
  snd (fst x).
Definition out_of {A} (x : (exn + A) * State * list event) : list event :=
  snd x.

(** The events [o], then whatever [x] did. *)
Definition after {A} (o : list event) (x : (exn + A) * State * list event)
  : (exn + A) * State * list event :=
  (res_of x, state_of x, o ++ out_of x).

(** The colour that a block leaves behind: advanced once in fade mode. *)
Definition faded (args : Args) (s : State) : State :=
  if fade args then set_rgb s (fadeStep 1 (rgb s)) else s.

(** The status banner of a block, if any. *)
Definition banner (status : option string) : list event :=
  match status with
  | Some text => [print_banner (" " ++ text ++ " ")]
  | None => []
  end.

(** [m] leaves the part [f] of the state as it found it, whether it
    returns or raises. *)
Definition keeps {A X} (f : State -> X) (m : M A) : Prop :=
  forall s, f (state_of (m s)) = f s.

(** The adjusted amplitude of a block of raw amplitude [amp], and the state
    that lines 172-176 of [callback] leave behind. *)
Definition adjusted (amp : Q) (s : State) : Q :=
  Py.max eps (amp - Py.min amp (noise_thresh s)).

Definition floor_updated (amp : Q) (s : State) : State :=
  set_prev_amps (set_noise_thresh s (Py.min amp (noise_thresh s)))
    (deque_append (prev_amps s) (adjusted amp s)).

(** A command line with a band that an 8-sample block at 8 Hz can serve. *)
Definition demo_args : Args :=
  mkArgs false 25 (255, 0, 0)%Z (PyInt 10) (0, 2) false.




(** The [+] of a line, and of all the lines of a feed. *)
Fixpoint count_plus (response : string) : nat :=
  match response with
  | EmptyString => O
  | String ch rest =>
      ((if Ascii.eqb ch "+"%char then 1 else 0) + count_plus rest)%nat
  end.


(** A gain that can be doubled [k] times and then still be halved: a
    float, or an int that [k] doublings keep below twice [FLOAT_LIMIT].
    For the default gain 10 that is [k <= 1021]. *)
Definition gain_room (k : nat) (x : number) : Prop :=
  match x with
  | PyFloat _ => True
  | PyInt n => (Z.abs n * 2 ^ Z.of_nat k < 2 * (2 ^ 1024 - 2 ^ 970))%Z
  end.



(** The centre frequency, in Hz, of bin [i] of a block of [n] samples. *)
Definition bin_freq (samplerate : Q) (n i : nat) : Q :=
  inject_Z (Z.of_nat i) * samplerate / inject_Z (Z.of_nat n).

(** A command line asking for the band from 0 to 20 kHz. *)
Definition wide_args : Args :=
  mkArgs false 25 (255, 0, 0)%Z (PyInt 10) (0, 20000) false.

(** A history that holds at least one and at most [c] values, [c] being its
    capacity. *)
Definition within_capacity (c : nat) (d : deque) : Prop :=
  (1 <= length (items d) <= c)%nat /\ maxlen d = c.



(** The three calls of [reset_lights]. *)
Definition reset_calls : list event :=
  [set_PWM_dutycycle RED_PIN 0; set_PWM_dutycycle GREEN_PIN 0;
   set_PWM_dutycycle BLUE_PIN 0].

(** Whenever [m] returns normally, the last thing it did was the reset. *)
Definition ends_with_reset (m : M unit) : Prop :=
  forall s, res_of (m s) = inr tt ->
            exists pre, out_of (m s) = pre ++ reset_calls.

(** A brightness: a number between 0 and 1. *)
Definition in01 (x : Q) : Prop := 0 <= x <= 1.

(** The three actuator calls of a block of brightness [bright] in colour
    state [s]. *)
Definition lights (s : State) (bright : Q) : list event :=
  [set_PWM_dutycycle RED_PIN (inject_Z (r s) * bright);
   set_PWM_dutycycle GREEN_PIN (inject_Z (g s) * bright);
   set_PWM_dutycycle BLUE_PIN (inject_Z (b s) * bright)].

(** A duty cycle the actuator accepts. *)
Definition duty_ok (e : event) : Prop :=
  match e with
  | set_PWM_dutycycle _ d => 0 <= d <= 255
  | _ => True
  end.

(** A brightness history of brightnesses, within its capacity [c >= 1]. *)
Definition bright_history_ok (c : nat) (d : deque) : Prop :=
  Forall in01 (items d) /\ (length (items d) <= c)%nat /\
  maxlen d = c /\ (0 < c)%nat.

(** What the pipeline relies on between blocks: a colour within range and a
    brightness history in order. *)
Definition sane (c : nat) (s : State) : Prop :=
  rgb_ok (rgb s) /\ bright_history_ok c (norm_amps s).

(** The end points of the edge of the wheel that position [k] lies on:
    [255 j] and [255 (j + 1)] for [255 j <= k < 255 (j + 1)]. *)
Definition edge_start (k : Z) : Z := (255 * (k / 255))%Z.
Definition edge_end (k : Z) : Z := (255 * (k / 255 + 1))%Z.

(** A colour that lies on the wheel. *)
Definition on_wheel (c : Z * Z * Z) : Prop :=
  exists k, (0 <= k < 1530)%Z /\ c = wheel k.

(** The part of a line that the interactive loop acts on: its characters up
    to the first that is neither [+] nor [-]. *)
Fixpoint gain_prefix (response : string) : string :=
  match response with
  | EmptyString => EmptyString
  | String ch rest =>
      if (Ascii.eqb ch "+"%char || Ascii.eqb ch "-"%char)%bool
      then String ch (gain_prefix rest)
      else EmptyString
  end.

(** The curve on a normalised value. *)
Definition curve_of (n : Q) : Q := bounded ((n + (1 # 10)) ^ 6) 0 1.

(** Colours as digits. *)

(** The [k] low hexadecimal digits of [n], most significant first. *)
Fixpoint fixed (k : nat) (n : Z) : string :=
  match k with
  | O => EmptyString
  | S k' =>
      (fixed k' (n / 16) ++ String (hex_digit (n mod 16)) EmptyString)%string
  end.

(** A stand-in for the float product, to run [norm_to_rgb]: exact, as the
    float product is wherever the exact one is a double. *)
Definition exact_product (x y : Q) : option Q := Some (Qred (x * y)).

(** The three bytes of a 24-bit number, most significant first. *)
Definition rgb_bytes (i : Z) : Z * Z * Z :=
  (i / 65536, (i / 256) mod 256, i mod 256)%Z.

(** What [hex_to_rgb] reads off the text of a negative number whose five
    leading digits are those of [j]: the sign goes with the first digit
    alone. *)
Definition signed_bytes (j : Z) : Z * Z * Z :=
  (- (j / 65536), (j / 256) mod 256, j mod 256)%Z.

(** * Properties *)

(** ** Comparisons, [min], [max] and [bounded] *)

Lemma Qltb_lt (x y : Q) : Py.Qltb x y = true <-> x < y.
Proof.
  unfold Py.Qltb. rewrite negb_true_iff. split; intro H.
  - apply Qnot_le_lt. intro Hle. apply Qle_bool_iff in Hle. congruence.
  - destruct (Qle_bool y x) eqn:E; [|reflexivity].
    apply Qle_bool_iff in E. exfalso. exact (Qlt_not_le _ _ H E).
Qed.

Lemma Qltb_ge (x y : Q) : Py.Qltb x y = false <-> y <= x.
Proof.
  unfold Py.Qltb. rewrite negb_false_iff. apply Qle_bool_iff.
Qed.

Lemma py_max_lb_l (a x : Q) : a <= Py.max a x.
Proof.
  unfold Py.max. destruct (Py.Qltb a x) eqn:E.
  - apply Qltb_lt in E. apply Qlt_le_weak, E.
  - apply Qle_refl.
Qed.

Lemma py_max_lb_r (a x : Q) : x <= Py.max a x.
Proof.
  unfold Py.max. destruct (Py.Qltb a x) eqn:E.
  - apply Qle_refl.
  - apply Qltb_ge, E.
Qed.

Lemma py_min_ub_l (a x : Q) : Py.min a x <= a.
Proof.
  unfold Py.min. destruct (Py.Qltb x a) eqn:E.
  - apply Qltb_lt in E. apply Qlt_le_weak, E.
  - apply Qle_refl.
Qed.

Lemma py_min_ub_r (a x : Q) : Py.min a x <= x.
Proof.
  unfold Py.min. destruct (Py.Qltb x a) eqn:E.
  - apply Qle_refl.
  - apply Qltb_ge, E.
Qed.

Lemma bounded_range (x l h : Q) : l <= h -> l <= bounded x l h <= h.
Proof.
  intro Hlh. unfold bounded. split; [apply py_max_lb_l|].
  unfold Py.max. destruct (Py.Qltb l (Py.min h x)); [apply py_min_ub_l|exact Hlh].
Qed.

Lemma bounded_is_clamp (x l h : Q) : l <= h -> bounded x l h == clamp x l h.
Proof.
  intro Hlh. unfold bounded, clamp, Py.max, Py.min.
  destruct (Qlt_le_dec x l) as [Hxl|Hxl].
  - assert (Hxh : x < h) by (eapply Qlt_le_trans; eauto).
    apply Qltb_lt in Hxh. rewrite Hxh.
    destruct (Py.Qltb l x) eqn:E; [|reflexivity].
    apply Qltb_lt in E. exfalso. exact (Qlt_irrefl _ (Qlt_trans _ _ _ Hxl E)).
  - destruct (Qlt_le_dec h x) as [Hhx|Hhx].
    + assert (E : Py.Qltb x h = false) by (apply Qltb_ge, Qlt_le_weak, Hhx).
      rewrite E. destruct (Py.Qltb l h) eqn:E2; [reflexivity|].
      apply Qltb_ge in E2. apply Qle_antisym; assumption.
    + destruct (Py.Qltb x h) eqn:E.
      * destruct (Py.Qltb l x) eqn:E2; [reflexivity|].
        apply Qltb_ge in E2. apply Qle_antisym; assumption.
      * apply Qltb_ge in E.
        assert (Hxh : x == h) by (apply Qle_antisym; assumption).
        destruct (Py.Qltb l h) eqn:E2; [symmetry; exact Hxh|].
        apply Qltb_ge in E2. rewrite Hxh. apply Qle_antisym; assumption.
Qed.


(** ** Percentiles of a non-empty history *)

Lemma insert_length (x : Q) (l : list Q) :
  length (np.insert x l) = S (length l).
Proof.
  induction l as [|y l IH]; simpl; [reflexivity|].
  destruct (Qle_bool x y); simpl; [reflexivity|now rewrite IH].
Qed.

Lemma sort_length (l : list Q) : length (np.sort l) = length l.
Proof.
  induction l as [|x l IH]; simpl; [reflexivity|].
  unfold np.sort in *. simpl. now rewrite insert_length, IH.
Qed.

Lemma percentile_defined (a : list Q) (q : Q) :
  a <> [] -> 0 <= q <= 100 -> exists v, np.percentile a q = inr v.
Proof.
  intros Ha [H0 H100]. unfold np.percentile.
  apply Qle_bool_iff in H0. apply Qle_bool_iff in H100.
  rewrite H0, H100. simpl.
  destruct (np.sort a) as [|x0 s] eqn:E.
  - apply (f_equal (@length Q)) in E. rewrite sort_length in E.
    destruct a; [contradiction|discriminate].
  - eexists. reflexivity.
Qed.

(** ** C4: percentile normalisation and the perceptual curve *)

(** On a non-empty history the brightness sample is always defined. *)
Lemma curved_norm_defined (val : Q) (history : list Q) :
  history <> [] -> exists c, curved_norm val history 10 = inr c.
Proof.
  intro Hne. unfold curved_norm, normalize.
  destruct (percentile_defined history (100 - 10) Hne) as [vmax Hmax];
    [split; discriminate|].
  destruct (percentile_defined history (10 * 2) Hne) as [vmin Hmin];
    [split; discriminate|].
  rewrite Hmax, Hmin. cbn [ebind]. eexists. reflexivity.
Qed.

Lemma py_max_Qmax (a x : Q) : Py.max a x == Qmax a x.
Proof.
  unfold Py.max. destruct (Py.Qltb a x) eqn:E.
  - apply Qltb_lt in E. symmetry. apply Q.max_r, Qlt_le_weak, E.
  - apply Qltb_ge in E. symmetry. apply Q.max_l, E.
Qed.



(** ** C6: the duty-cycle guard *)

(** C6.  On any channel, a duty above 255 makes no actuator call at all:
    [setLights] returns with the state untouched and nothing emitted (it
    does not clamp to 255).  A duty of at most 255 is forwarded unchanged,
    in exactly one call. *)
Theorem setLights_guard (pin : Z) (duty : Q) (s : State) :
  (255 < duty -> setLights pin duty s = (inr tt, s, [])) /\
  (duty <= 255 ->
   setLights pin duty s = (inr tt, s, [set_PWM_dutycycle pin duty])).
Proof.
  unfold setLights. split; intro H.
  - apply Qltb_lt in H. rewrite H. reflexivity.
  - apply Qltb_ge in H. rewrite H. reflexivity.
Qed.

Lemma setLights_guard_witness :
  setLights RED_PIN 300 idle_state = (inr tt, idle_state, []) /\
  setLights RED_PIN 255 idle_state =
    (inr tt, idle_state, [set_PWM_dutycycle RED_PIN 255]).
Proof.
  split.
  - apply (proj1 (setLights_guard RED_PIN 300 idle_state)). reflexivity.
  - apply (proj2 (setLights_guard RED_PIN 255 idle_state)). discriminate.
Defined.

(** ** C5: the colour fade cycle *)

Ltac case_cmp :=
  match goal with
  | |- context [(?a <=? ?b)%Z] => destruct (Z.leb_spec a b)
  | |- context [(?a <? ?b)%Z] => destruct (Z.ltb_spec a b)
  | |- context [(?a =? ?b)%Z] => destruct (Z.eqb_spec a b)
  end; try lia.

Lemma updateColor_range (c step : Z) : channel_ok (updateColor c step).
Proof.
  unfold updateColor, channel_ok. rewrite Z.gtb_ltb.
  repeat case_cmp.
Qed.

(** Whatever the step, [fadeStep] keeps every channel in [0, 255]. *)
Lemma fadeStep_rgb_ok (steps : Z) (c : Z * Z * Z) :
  rgb_ok c -> rgb_ok (fadeStep steps c).
Proof.
  destruct c as [[r0 g0] b0]. intros (Hr & Hg & Hb).
  unfold fadeStep.
  repeat match goal with
         | |- context [if ?c then _ else _] => destruct c
         end;
    simpl; repeat split; try apply updateColor_range;
    try apply Hr; try apply Hg; try apply Hb.
Qed.

Lemma fade_iter_rgb_ok (n : nat) (c : Z * Z * Z) :
  rgb_ok c -> rgb_ok (fade_iter n c).
Proof.
  intro H. induction n as [|n IH]; [exact H|].
  unfold fade_iter in *. simpl. apply fadeStep_rgb_ok, IH.
Qed.

Lemma rgb_eq (r1 g1 b1 r2 g2 b2 : Z) :
  r1 = r2 -> g1 = g2 -> b1 = b2 -> (r1, g1, b1) = (r2, g2, b2).
Proof. congruence. Qed.

Lemma rgb_inj (r1 g1 b1 r2 g2 b2 : Z) :
  (r1, g1, b1) = (r2, g2, b2) -> r1 = r2 /\ g1 = g2 /\ b1 = b2.
Proof. intro H. inversion H. auto. Qed.

(** One advance moves one position along the wheel. *)
Lemma fadeStep_wheel (k : Z) :
  (0 <= k < 1530)%Z -> fadeStep 1 (wheel k) = wheel (k + 1).
Proof.
  intro Hk. unfold wheel.
  repeat case_cmp;
    unfold fadeStep, updateColor; rewrite ?Z.gtb_ltb;
    repeat (case_cmp; cbn [andb]); rewrite ?Z.gtb_ltb;
    repeat (case_cmp; cbn [andb]);
    apply rgb_eq; lia.
Qed.

Lemma fade_iter_wheel (k : nat) :
  (k <= 1530)%nat -> fade_iter k red = wheel (Z.of_nat k).
Proof.
  induction k as [|k IH]; intro Hk; [reflexivity|].
  unfold fade_iter in *. simpl Nat.iter.
  rewrite IH by lia. rewrite fadeStep_wheel by lia.
  f_equal. lia.
Qed.

Lemma wheel_first_return (k : Z) :
  (0 < k < 1530)%Z -> wheel k <> red.
Proof.
  intros Hk. unfold wheel, red.
  repeat case_cmp; intro E; apply rgb_inj in E; lia.
Qed.

(** C5.  From (255,0,0), advancing with step 1 runs along the six edges of
    the colour wheel, through yellow, green, cyan, blue and magenta at 255,
    510, 765, 1020 and 1275 advances, and is back at (255,0,0) after 1530 =
    255*6 advances and at no earlier advance; every channel stays within
    [0,255] all along. *)
Theorem fade_cycle :
  (forall k, (k <= 1530)%nat -> fade_iter k red = wheel (Z.of_nat k)) /\
  fade_iter 255 red = (255, 255, 0)%Z /\
  fade_iter 510 red = (0, 255, 0)%Z /\
  fade_iter 765 red = (0, 255, 255)%Z /\
  fade_iter 1020 red = (0, 0, 255)%Z /\
  fade_iter 1275 red = (255, 0, 255)%Z /\
  fade_iter (255 * 6) red = red /\
  (forall k, (0 < k < 1530)%nat -> fade_iter k red <> red) /\
  (forall k, rgb_ok (fade_iter k red)).
Proof.
  split; [exact fade_iter_wheel|].
  repeat split; try (rewrite fade_iter_wheel by lia; reflexivity).
  - intros k Hk. rewrite fade_iter_wheel by lia.
    apply wheel_first_return. lia.
  - intro k. apply fade_iter_rgb_ok.
    unfold red, rgb_ok, channel_ok. lia.
Qed.

Lemma fade_cycle_witness :
  fade_iter 7 red <> red /\ fade_iter 1529 red <> red /\
  fade_iter 400 red = wheel 400.
Proof.
  destruct fade_cycle as (Hwheel & _ & _ & _ & _ & _ & _ & Hfirst & _).
  split; [apply (Hfirst 7%nat); lia|].
  split; [apply (Hfirst 1529%nat); lia|].
  apply (Hwheel 400%nat). lia.
Defined.

(** ** Running a computation *)

Lemma after_nil {A} (x : (exn + A) * State * list event) : after [] x = x.
Proof. destruct x as [[ra s] o]. reflexivity. Qed.

Lemma bind_ret {A B} (a : A) (k : A -> M B) (s : State) :
  bind (ret a) k s = k a s.
Proof. unfold bind, ret. destruct (k a s) as [[rb s2] o2]. reflexivity. Qed.

Lemma bind_modify {B} (f : State -> State) (k : unit -> M B) (s : State) :
  bind (modify f) k s = k tt (f s).
Proof.
  unfold bind, modify. destruct (k tt (f s)) as [[rb s2] o2]. reflexivity.
Qed.

Lemma bind_get {A B} (f : State -> A) (k : A -> M B) (s : State) :
  bind (get f) k s = k (f s) s.
Proof.
  unfold bind, get. destruct (k (f s) s) as [[rb s2] o2]. reflexivity.
Qed.

Lemma bind_emit {B} (e : event) (k : unit -> M B) (s : State) :
  bind (emit e) k s = after [e] (k tt s).
Proof.
  unfold bind, emit, after. destruct (k tt s) as [[rb s2] o2]. reflexivity.
Qed.

Lemma bind_lift_inr {A B} (a : A) (k : A -> M B) (s : State) :
  bind (lift (inr a)) k s = k a s.
Proof. unfold bind, lift. destruct (k a s) as [[rb s2] o2]. reflexivity. Qed.

Lemma bind_lift_inl {A B} (e : exn) (k : A -> M B) (s : State) :
  bind (lift (inl e)) k s = (inl e, s, []).
Proof. reflexivity. Qed.

Lemma bind_raise {A B} (e : exn) (k : A -> M B) (s : State) :
  bind (raise e) k s = (inl e, s, []).
Proof. reflexivity. Qed.

Lemma bind_setLights {B} (pin : Z) (d : Q) (k : unit -> M B) (s : State) :
  bind (setLights pin d) k s =
  if Py.Qltb 255 d then k tt s else after [set_PWM_dutycycle pin d] (k tt s).
Proof.
  unfold setLights. destruct (Py.Qltb 255 d).
  - apply bind_ret.
  - apply bind_emit.
Qed.

Lemma bind_assoc_run {A B C} (m : M A) (k : A -> M B) (h : B -> M C) (s : State) :
  bind (bind m k) h s = bind m (fun a => bind (k a) h) s.
Proof.
  unfold bind. destruct (m s) as [[ra s1] o1]. destruct ra as [e|a]; [reflexivity|].
  destruct (k a s1) as [[rb s2] o2]. destruct rb as [e|b0]; [reflexivity|].
  destruct (h b0 s2) as [[rc s3] o3]. now rewrite app_assoc.
Qed.

Lemma state_of_after {A} (o : list event) (x : (exn + A) * State * list event) :
  state_of (after o x) = state_of x.
Proof. reflexivity. Qed.

Lemma res_of_after {A} (o : list event) (x : (exn + A) * State * list event) :
  res_of (after o x) = res_of x.
Proof. reflexivity. Qed.

Lemma out_of_after {A} (o : list event) (x : (exn + A) * State * list event) :
  out_of (after o x) = o ++ out_of x.
Proof. reflexivity. Qed.

Lemma state_of_bind {A B} (m : M A) (k : A -> M B) (s : State) :
  state_of (bind m k s) =
  match res_of (m s) with
  | inl _ => state_of (m s)
  | inr a => state_of (k a (state_of (m s)))
  end.
Proof.
  unfold bind, state_of, res_of. destruct (m s) as [[ra s1] o1]. simpl.
  destruct ra as [e|a]; [reflexivity|].
  destruct (k a s1) as [[rb s2] o2]. reflexivity.
Qed.

(** ** Frame rules: what a computation leaves alone *)

Section Keeps.

Context {X : Type} (f : State -> X).

Lemma keeps_bind {A B} (m : M A) (k : A -> M B) :
  keeps f m -> (forall a, keeps f (k a)) -> keeps f (bind m k).
Proof.
  intros Hm Hk s. rewrite state_of_bind.
  destruct (res_of (m s)) as [e|a]; [apply Hm|].
  rewrite Hk. apply Hm.
Qed.

Lemma keeps_ret {A} (a : A) : keeps f (ret a).
Proof. intro s. reflexivity. Qed.

Lemma keeps_raise {A} (e : exn) : keeps f (@raise A e).
Proof. intro s. reflexivity. Qed.

Lemma keeps_lift {A} (x : exn + A) : keeps f (lift x).
Proof. intro s. reflexivity. Qed.

Lemma keeps_get {A} (h : State -> A) : keeps f (get h).
Proof. intro s. reflexivity. Qed.

Lemma keeps_emit (e : event) : keeps f (emit e).
Proof. intro s. reflexivity. Qed.

Lemma keeps_modify (h : State -> State) :
  (forall s, f (h s) = f s) -> keeps f (modify h).
Proof. intros H s. apply H. Qed.

Lemma keeps_when (c : bool) (m : M unit) : keeps f m -> keeps f (when c m).
Proof. intro H. destruct c; [exact H|apply keeps_ret]. Qed.

Lemma keeps_setLights (pin : Z) (d : Q) : keeps f (setLights pin d).
Proof.
  unfold setLights. destruct (Py.Qltb 255 d); [apply keeps_ret|apply keeps_emit].
Qed.

Lemma keeps_reset_lights : keeps f reset_lights.
Proof.
  unfold reset_lights. repeat (apply keeps_bind; [|intro]); apply keeps_setLights.
Qed.

End Keeps.

Ltac frame :=
  repeat first
    [ apply keeps_bind; [|intro]
    | apply keeps_ret | apply keeps_raise | apply keeps_lift
    | apply keeps_get | apply keeps_emit | apply keeps_setLights
    | apply keeps_when
    | apply keeps_modify; intro; reflexivity ].

Lemma adjust_gain_keeps {X} (f : State -> X) (response : string) :
  (forall s x, f (set_gain s x) = f s) -> keeps f (adjust_gain response).
Proof.
  intro Hf. induction response as [|ch rest IH]; simpl.
  - apply keeps_ret.
  - destruct (Ascii.eqb ch "+"); [|destruct (Ascii.eqb ch "-")].
    + apply keeps_bind; [|intro; exact IH].
      apply keeps_modify. intro s. apply Hf.
    + apply keeps_bind; [apply keeps_get|intro].
      apply keeps_bind; [apply keeps_lift|intro].
      apply keeps_bind; [|intro; exact IH].
      apply keeps_modify. intro s. apply Hf.
    + apply keeps_emit.
Qed.

Lemma py_min_Qmin (a x : Q) : Py.min a x == Qmin x a.
Proof.
  unfold Py.min. destruct (Py.Qltb x a) eqn:E.
  - apply Qltb_lt in E. symmetry. apply Q.min_l, Qlt_le_weak, E.
  - apply Qltb_ge in E. symmetry. apply Q.min_r, E.
Qed.

Lemma any_all_zero (indata : list Q) :
  Forall (fun x => x == 0) indata -> Py.any indata = false.
Proof.
  induction 1 as [|x l Hx _ IH]; [reflexivity|].
  unfold Py.any in *. simpl. rewrite IH.
  unfold Py.truthy. apply Qeq_bool_iff in Hx. now rewrite Hx.
Qed.

Section Callback.

Context (args : Args) (samplerate : Q).
Context (hanning : nat -> list Q) (rfft_abs : list Q -> list Q).

Local Abbreviation cb := (callback args samplerate hanning rfft_abs).
Local Abbreviation band_amp := (band_amplitude args samplerate hanning rfft_abs).

(** What [callback] does before it looks at the samples. *)
Lemma callback_head_gen
    (h : nat -> list Q) (f : list Q -> list Q)
    (indata : list Q) (status : option string) (s : State) :
  callback args samplerate h f indata status s =
  after (banner status)
    ((if Py.any indata then
        amp <- lift (band_amplitude args samplerate h f indata) ;;
        modify (fun s => set_noise_thresh s (Py.min amp (noise_thresh s))) ;;
        nt <- get noise_thresh ;;
        let amp := Py.max eps (amp - nt) in
        modify (fun s => set_prev_amps s (deque_append (prev_amps s) amp)) ;;
        drive amp
      else
        emit (print "no input"))%prog (faded args s)).
Proof.
  unfold callback, faded, when, banner.
  destruct (fade args), status as [text|];
    rewrite ?bind_modify, ?bind_ret, ?bind_emit, ?after_nil; reflexivity.
Qed.

Lemma faded_frame (s : State) :
  prev_amps (faded args s) = prev_amps s /\
  norm_amps (faded args s) = norm_amps s /\
  noise_thresh (faded args s) = noise_thresh s /\
  args_gain (faded args s) = args_gain s.
Proof.
  unfold faded. destruct (fade args); [|auto].
  unfold set_rgb. destruct (fadeStep 1 (rgb s)) as [[r' g'] b']. auto.
Qed.

Lemma pwm_calls_banner (status : option string) (text : string) :
  pwm_calls (banner status ++ [print text]) = [].
Proof. destruct status; reflexivity. Qed.

(** ** C8: an all-zero block *)

(** C8.  On a block whose samples are all zero the handler returns normally
    having only advanced the colour (in fade mode) and printed the status
    banner, if any, followed by "no input": both histories and the noise
    floor are as before, no actuator call is made, and the outcome is the
    same whatever the window and the transform are, since neither is
    applied. *)
Theorem silent_block_skipped
    (indata : list Q) (status : option string) (s : State) :
  Forall (fun x => x == 0) indata ->
  cb indata status s =
    (inr tt, faded args s, banner status ++ [print "no input"]) /\
  prev_amps (faded args s) = prev_amps s /\
  norm_amps (faded args s) = norm_amps s /\
  noise_thresh (faded args s) = noise_thresh s /\
  pwm_calls (banner status ++ [print "no input"]) = [] /\
  (forall hanning' rfft_abs',
     callback args samplerate hanning' rfft_abs' indata status s =
     cb indata status s).
Proof.
  intro Hzero. apply any_all_zero in Hzero.
  assert (Hrun : forall h f,
            callback args samplerate h f indata status s =
            (inr tt, faded args s, banner status ++ [print "no input"])).
  { intros h f. rewrite callback_head_gen, Hzero. reflexivity. }
  destruct (faded_frame s) as (Hp & Hn & Ht & _).
  repeat split; auto using pwm_calls_banner.
  intros h f. now rewrite !Hrun.
Qed.

(** ** C7: the noise floor and the adjusted amplitude *)

Lemma callback_processed
    (indata : list Q) (status : option string) (s : State) (amp : Q) :
  Py.any indata = true -> band_amp indata = inr amp ->
  cb indata status s =
  after (banner status)
    (drive (adjusted amp (faded args s)) (floor_updated amp (faded args s))).
Proof.
  intros Hany Hamp. rewrite callback_head_gen, Hany, Hamp.
  rewrite bind_lift_inr, bind_modify, bind_get. cbv zeta.
  rewrite bind_modify. reflexivity.
Qed.

Lemma callback_band_error
    (indata : list Q) (status : option string) (s : State) (e : exn) :
  Py.any indata = true -> band_amp indata = inl e ->
  cb indata status s = (inl e, faded args s, banner status ++ []).
Proof.
  intros Hany Hamp. rewrite callback_head_gen, Hany, Hamp.
  rewrite bind_lift_inl. reflexivity.
Qed.

Lemma callback_no_input
    (indata : list Q) (status : option string) (s : State) :
  Py.any indata = false ->
  cb indata status s =
  (inr tt, faded args s, banner status ++ [print "no input"]).
Proof.
  intro Hany. rewrite callback_head_gen, Hany. reflexivity.
Qed.

Lemma drive_keeps_noise (a : Q) : keeps noise_thresh (drive a).
Proof. unfold drive. frame. Qed.

Lemma drive_keeps_prev_amps (a : Q) : keeps prev_amps (drive a).
Proof. unfold drive. frame. Qed.

Lemma drive_keeps_rgb (a : Q) : keeps rgb (drive a).
Proof. unfold drive. frame. Qed.


(** The noise floor after a block, in every case. *)
Lemma callback_noise (indata : list Q) (status : option string) (s : State) :
  noise_thresh (state_of (cb indata status s)) =
  if Py.any indata then
    match band_amp indata with
    | inr amp => Py.min amp (noise_thresh s)
    | inl _ => noise_thresh s
    end
  else noise_thresh s.
Proof.
  destruct (faded_frame s) as (_ & _ & Ht & _).
  destruct (Py.any indata) eqn:Hany.
  - destruct (band_amp indata) as [e|amp] eqn:Hamp.
    + rewrite (callback_band_error _ _ _ _ Hany Hamp). exact Ht.
    + rewrite (callback_processed _ _ _ _ Hany Hamp), state_of_after.
      rewrite drive_keeps_noise. simpl. now rewrite Ht.
  - rewrite (callback_no_input _ _ _ Hany). exact Ht.
Qed.

Lemma callback_noise_le (indata : list Q) (status : option string) (s : State) :
  noise_thresh (state_of (cb indata status s)) <= noise_thresh s.
Proof.
  rewrite callback_noise.
  destruct (Py.any indata); [|apply Qle_refl].
  destruct (band_amp indata) as [e|amp]; [apply Qle_refl|apply py_min_ub_r].
Qed.

(** Over the whole life of the stream the noise floor never rises. *)
Lemma stream_noise_le (inputs : list input) :
  forall (active : bool) (s : State),
    noise_thresh (state_of (stream args samplerate hanning rfft_abs active inputs s))
    <= noise_thresh s.
Proof.
  induction inputs as [|i rest IH]; intros active s; [apply Qle_refl|].
  destruct i as [indata status|response| |kind msg]; simpl;
    try apply Qle_refl.
  - destruct active; [|apply IH].
    pose proof (callback_noise_le indata status s) as Hcb.
    destruct (cb indata status s) as [[res s1] o1].
    match goal with
    | |- context [stream _ _ _ _ ?a rest s1] =>
        pose proof (IH a s1) as Hrest;
        destruct (stream args samplerate hanning rfft_abs a rest s1)
          as [[res2 s2] o2]
    end.
    unfold state_of in *. simpl in *. eapply Qle_trans; eassumption.
  - destruct (quits response); [apply Qle_refl|].
    rewrite state_of_bind.
    pose proof (adjust_gain_keeps noise_thresh response
                  (fun s x => eq_refl)) as Hk.
    destruct (res_of (adjust_gain response s)).
    + rewrite Hk. apply Qle_refl.
    + eapply Qle_trans; [apply IH|]. rewrite Hk. apply Qle_refl.
Qed.

(** C7.  A block never raises the noise floor, and neither does any
    sequence of blocks and lines fed to the open stream.  On a processed
    block of raw amplitude [amp] the noise floor becomes the minimum of its
    previous value and [amp], and the value appended to the band-energy
    history is max(1e-9, amp - noise floor), which is at least 1e-9. *)
Theorem noise_floor_monotone
    (indata : list Q) (status : option string) (s : State) :
  let s' := state_of (cb indata status s) in
  noise_thresh s' <= noise_thresh s /\
  (forall amp,
     Py.any indata = true -> band_amp indata = inr amp ->
     noise_thresh s' == Qmin (noise_thresh s) amp /\
     prev_amps s' =
       deque_append (prev_amps s) (Py.max eps (amp - noise_thresh s')) /\
     Py.max eps (amp - noise_thresh s') == Qmax eps (amp - noise_thresh s') /\
     eps <= Py.max eps (amp - noise_thresh s')) /\
  (forall active inputs,
     noise_thresh
       (state_of (stream args samplerate hanning rfft_abs active inputs s))
     <= noise_thresh s).
Proof.
  cbv zeta. split; [apply callback_noise_le|]. split; [|intros; apply stream_noise_le].
  intros amp Hany Hamp.
  rewrite callback_noise, Hany, Hamp.
  split; [apply py_min_Qmin|].
  split; [|split; [apply py_max_Qmax|apply py_max_lb_l]].
  rewrite (callback_processed _ _ _ _ Hany Hamp), state_of_after.
  rewrite drive_keeps_prev_amps.
  destruct (faded_frame s) as (Hp & _ & Ht & _).
  unfold floor_updated, adjusted. simpl. now rewrite Hp, Ht.
Qed.

(** ** C3: silence detection *)

Lemma deque_append_maxlen (d : deque) (x : Q) :
  maxlen (deque_append d x) = maxlen d.
Proof.
  unfold deque_append. destruct (maxlen d) eqn:E; [exact E|].
  destruct (length (items d) <? S n)%nat; reflexivity.
Qed.


Lemma deque_reseed (d : deque) (x : Q) :
  (0 < maxlen d)%nat ->
  deque_append (deque_clear d) x = mkDeque [x] (maxlen d).
Proof.
  intro H. unfold deque_append, deque_clear. simpl.
  destruct (maxlen d) eqn:E; [lia|]. reflexivity.
Qed.

Lemma zero_duty_forwarded (z : Z) : Py.Qltb 255 (inject_Z z * 0) = false.
Proof. apply Qltb_ge. rewrite Qmult_0_r. discriminate. Qed.

(** What [drive] does with a silent history. *)
Lemma drive_silent (a : Q) (s : State) :
  (0 < maxlen (norm_amps s))%nat ->
  np.std_lt (items (prev_amps s)) 1 = true ->
  drive a s =
  (inr tt,
   set_norm_amps s (mkDeque [0] (maxlen (norm_amps s))),
   [set_PWM_dutycycle RED_PIN (inject_Z (r s) * 0);
    set_PWM_dutycycle GREEN_PIN (inject_Z (g s) * 0);
    set_PWM_dutycycle BLUE_PIN (inject_Z (b s) * 0);
    print (Py.str_repeat (Z.to_nat (Py.int (a / 10))) "-")]).
Proof.
  intros Hn Hstd. unfold drive.
  rewrite bind_get.
  destruct (curved_norm_defined a (items (prev_amps s))) as [c Hc].
  { intro E. rewrite E in Hstd. discriminate. }
  rewrite Hc, bind_lift_inr, bind_modify, bind_get.
  cbn [prev_amps set_norm_amps]. rewrite Hstd. unfold when.
  rewrite bind_assoc_run, bind_modify, bind_modify, bind_get.
  cbn [norm_amps set_norm_amps].
  rewrite deque_reseed by (rewrite deque_append_maxlen; exact Hn).
  rewrite deque_append_maxlen.
  cbn [items length].
  change (np.average [0] (np.arange 1 (Z.of_nat 1 + 1))) with (@inr exn Q 0).
  rewrite bind_lift_inr.
  rewrite bind_get, bind_setLights, zero_duty_forwarded.
  rewrite bind_get, bind_setLights, zero_duty_forwarded.
  rewrite bind_get, bind_setLights, zero_duty_forwarded.
  reflexivity.
Qed.

Lemma pwm_calls_app (t1 t2 : list event) :
  pwm_calls (t1 ++ t2) = pwm_calls t1 ++ pwm_calls t2.
Proof. apply filter_app. Qed.

Lemma pwm_calls_banner_only (status : option string) :
  pwm_calls (banner status) = [].
Proof. destruct status; reflexivity. Qed.



End Callback.

Lemma silent_block_skipped_witness :
  callback default_args 44100 flat_window abs_spectrum [0; 0; 0] None idle_state =
    (inr tt, idle_state, [print "no input"]).
Proof.
  apply (silent_block_skipped default_args 44100 flat_window abs_spectrum
           [0; 0; 0] None idle_state).
  repeat constructor.
Defined.

(** ** C10: the gain is never read *)

Lemma same_but_gain_refl (s : State) : same_but_gain s s.
Proof. repeat split. Qed.




Lemma res_of_bind {A B} (m : M A) (k : A -> M B) (s : State) :
  res_of (bind m k s) =
  match res_of (m s) with
  | inl e => inl e
  | inr a => res_of (k a (state_of (m s)))
  end.
Proof.
  unfold bind, state_of, res_of. destruct (m s) as [[ra s1] o1]. simpl.
  destruct ra as [e|a]; [reflexivity|].
  destruct (k a s1) as [[rb s2] o2]. reflexivity.
Qed.

Lemma out_of_bind {A B} (m : M A) (k : A -> M B) (s : State) :
  out_of (bind m k s) =
  match res_of (m s) with
  | inl e => out_of (m s)
  | inr a => out_of (m s) ++ out_of (k a (state_of (m s)))
  end.
Proof.
  unfold bind, state_of, res_of, out_of. destruct (m s) as [[ra s1] o1]. simpl.
  destruct ra as [e|a]; [reflexivity|].
  destruct (k a s1) as [[rb s2] o2]. reflexivity.
Qed.
















Lemma gain_room_le (k k' : nat) (x : number) :
  (k' <= k)%nat -> gain_room k x -> gain_room k' x.
Proof.
  intros Hk. destruct x as [n|q]; [|trivial]. unfold gain_room.
  generalize (2 * (2 ^ 1024 - 2 ^ 970))%Z. intros L H.
  assert (2 ^ Z.of_nat k' <= 2 ^ Z.of_nat k)%Z
    by (apply Z.pow_le_mono_r; lia).
  nia.
Qed.

Lemma gain_room_double (k : nat) (x : number) :
  gain_room (S k) x -> gain_room k (number_double x).
Proof.
  destruct x as [n|q]; [|trivial]. unfold gain_room, number_double.
  generalize (2 * (2 ^ 1024 - 2 ^ 970))%Z. intros L H.
  rewrite Nat2Z.inj_succ, Z.pow_succ_r in H by lia.
  rewrite Z.abs_mul. change (Z.abs 2) with 2%Z. lia.
Qed.

Lemma halve_abs (n : Z) : Qabs (inject_Z n / 2) == inject_Z (Z.abs n) / 2.
Proof. unfold Qdiv. rewrite Qabs_Qmult. reflexivity. Qed.

(** Halving an int raises exactly when its magnitude is at least twice
    [FLOAT_LIMIT]. *)
Lemma number_halve_int (n : Z) :
  ((Z.abs n < 2 * (2 ^ 1024 - 2 ^ 970))%Z ->
   number_halve (PyInt n) = inr (PyFloat (inject_Z n / 2))) /\
  ((2 * (2 ^ 1024 - 2 ^ 970) <= Z.abs n)%Z ->
   number_halve (PyInt n) = inl division_overflow).
Proof.
  unfold number_halve, FLOAT_LIMIT.
  generalize (2 ^ 1024 - 2 ^ 970)%Z. intro L.
  assert (E : inject_Z L <= Qabs (inject_Z n / 2) <-> (2 * L <= Z.abs n)%Z).
  { rewrite halve_abs. unfold Qle, Qdiv, Qmult, Qinv, inject_Z.
    cbn [Qnum Qden]. change (Z.pos (1 * 2)) with 2%Z. lia. }
  destruct (Qle_bool (inject_Z L) (Qabs (inject_Z n / 2))) eqn:B.
  - apply Qle_bool_iff, E in B. split; [lia|reflexivity].
  - split; [reflexivity|]. intro H. apply E, Qle_bool_iff in H. congruence.
Qed.

Lemma number_halve_room (k : nat) (x : number) :
  gain_room k x -> exists q, number_halve x = inr (PyFloat q).
Proof.
  destruct x as [n|q]; [|intros _; eexists; reflexivity].
  intro H. apply (gain_room_le k 0) in H; [|lia].
  unfold gain_room in H. change (2 ^ Z.of_nat 0)%Z with 1%Z in H.
  rewrite Z.mul_1_r in H.
  eexists. apply (proj1 (number_halve_int n) H).
Qed.

Lemma set_gain_twice (s : State) (x y : number) :
  set_gain (set_gain s x) y = set_gain s y.
Proof. reflexivity. Qed.

Lemma set_gain_same (s : State) : set_gain s (args_gain s) = s.
Proof. destruct s. reflexivity. Qed.

(** With room for its [+], a line returns: it changes nothing but the gain
    and prints the usage banner when a foreign character stops it. *)
Lemma adjust_gain_room (response : string) :
  forall (s : State) (k : nat),
    gain_room k (args_gain s) -> (count_plus response <= k)%nat ->
    exists x,
      adjust_gain response s =
        (inr tt, set_gain s x,
         if plus_minus response then [] else [print_banner usage_line]) /\
      gain_room (k - count_plus response) x.
Proof.
  induction response as [|ch rest IH]; intros s k Hroom Hk.
  - exists (args_gain s). rewrite set_gain_same. split; [reflexivity|].
    now rewrite Nat.sub_0_r.
  - cbn [adjust_gain plus_minus count_plus] in *.
    destruct (Ascii.eqb ch "+") eqn:Eplus; cbn [orb andb].
    + destruct k as [|k]; [lia|].
      destruct (IH (set_gain s (number_double (args_gain s))) k)
        as (x & Hrun & Hx); [now apply gain_room_double|lia|].
      exists x. rewrite bind_modify, Hrun, set_gain_twice.
      split; [reflexivity|exact Hx].
    + destruct (Ascii.eqb ch "-") eqn:Eminus; cbn [orb andb].
      * destruct (number_halve_room k _ Hroom) as [q Hq].
        destruct (IH (set_gain s (PyFloat q)) k) as (x & Hrun & Hx);
          [exact I|lia|].
        exists x. rewrite bind_get, Hq, bind_lift_inr, bind_modify, Hrun.
        rewrite set_gain_twice. split; [reflexivity|exact Hx].
      * exists (args_gain s). rewrite set_gain_same. split; [reflexivity|].
        eapply gain_room_le; [|exact Hroom]. lia.
Qed.


Section Gain.

Context (args : Args) (samplerate : Q).
Context (hanning : nat -> list Q) (rfft_abs : list Q -> list Q).

Local Abbreviation cb := (callback args samplerate hanning rfft_abs).
Local Abbreviation run_stream := (stream args samplerate hanning rfft_abs).
















End Gain.



(** ** C1: the reset on the exit paths *)

Lemma handler_never_resets (e : exn) (s : State) :
  pwm_calls (out_of (handler e s)) = [].
Proof. destruct e; reflexivity. Qed.

(** Once the [try] block has raised, no actuator call follows. *)
Lemma try_except_adds_no_call (m : M unit) (s : State) (e : exn) :
  res_of (m s) = inl e ->
  pwm_calls (out_of (try_except m s)) = pwm_calls (out_of (m s)).
Proof.
  unfold try_except. destruct (m s) as [[res s1] o1]. cbn [res_of out_of fst snd].
  intros ->. pose proof (handler_never_resets e s1) as H.
  destruct (handler e s1) as [[res2 s2] o2]. cbn [out_of snd] in *.
  now rewrite pwm_calls_app, H, app_nil_r.
Qed.

Lemma ends_with_reset_bind {A} (m : M A) (k : A -> M unit) :
  (forall a, ends_with_reset (k a)) -> ends_with_reset (bind m k).
Proof.
  intros Hk s. rewrite res_of_bind, out_of_bind.
  destruct (res_of (m s)) as [e|a]; [discriminate|].
  intro Hres. destruct (Hk a _ Hres) as [pre Hpre].
  exists (out_of (m s) ++ pre). now rewrite Hpre, app_assoc.
Qed.

Lemma reset_lights_ends_with_reset : ends_with_reset reset_lights.
Proof. intros s _. exists []. reflexivity. Qed.

Lemma try_body_ends_with_reset
    (args : Args) (samplerate : Q)
    (hanning : nat -> list Q) (rfft_abs : list Q -> list Q)
    (inputs : list input) :
  ends_with_reset (try_body args samplerate hanning rfft_abs inputs).
Proof.
  unfold try_body. destruct (list_devices args).
  - intros s. rewrite bind_emit. discriminate.
  - do 3 (apply ends_with_reset_bind; intro).
    apply reset_lights_ends_with_reset.
Qed.

(** C1, on the code.  Only the normal quit resets the LEDs: when the [try]
    block returns normally its last three events are the reset.  But once it
    has raised, no actuator call follows: [parser.exit] raises SystemExit,
    so the [reset_lights()] written after it in the KeyboardInterrupt
    handler is never reached, and the Exception handler has no reset at
    all.  An interrupt, the end of the input (EOFError) or any other fault
    ends the program with its message and the LEDs as the last block left
    them: lit, in the last run below. *)
Theorem reset_only_on_normal_quit :
  (forall args samplerate hanning rfft_abs inputs,
     ends_with_reset (try_body args samplerate hanning rfft_abs inputs)) /\
  (forall e s, pwm_calls (out_of (handler e s)) = []) /\
  (forall (m : M unit) s e,
     res_of (m s) = inl e ->
     pwm_calls (out_of (try_except m s)) = pwm_calls (out_of (m s))) /\
  (forall h f,
     main default_args 44100 h f [Line "q"] =
     [print_sampling 44100; print "Starting the lightshow..."]
     ++ reset_calls ++ [exit_ "0"]) /\
  (forall h f,
     main default_args 44100 h f [Interrupt] =
     [print_sampling 44100; print "Starting the lightshow...";
      exit_ "Interrupted by user"]) /\
  (forall h f,
     main default_args 44100 h f [] =
     [print_sampling 44100; print "Starting the lightshow...";
      exit_ "EOFError: EOF when reading a line"]) /\
  (forall h f kind msg,
     main default_args 44100 h f [Fault kind msg] =
     [print_sampling 44100; print "Starting the lightshow...";
      exit_ (kind ++ ": " ++ msg)]) /\
  pwm_calls
    (main demo_args 8 flat_window abs_spectrum
       [Block [1; 2; 3; 4; 5; 6; 7; 8] None;
        Block [10; 20; 3; 4; 5; 6; 7; 8] None;
        Interrupt]) =
  [set_PWM_dutycycle RED_PIN 0; set_PWM_dutycycle GREEN_PIN 0;
   set_PWM_dutycycle BLUE_PIN 0;
   set_PWM_dutycycle RED_PIN (510 # 3); set_PWM_dutycycle GREEN_PIN (0 # 3);
   set_PWM_dutycycle BLUE_PIN (0 # 3)].
Proof.
  split; [exact try_body_ends_with_reset|].
  split; [exact handler_never_resets|].
  split; [exact try_except_adds_no_call|].
  repeat split; intros; reflexivity.
Qed.

(** ** C9: the band-energy history *)

Lemma py_div_nonzero (x y : Q) : ~ y == 0 -> py_div x y = inr (x / y).
Proof.
  intro H. unfold py_div. destruct (Qeq_bool y 0) eqn:E; [|reflexivity].
  apply Qeq_bool_iff in E. contradiction.
Qed.

Lemma int_below_one (x : Q) : 0 <= x -> x < 1 -> Py.int x = 0%Z.
Proof.
  destruct x as [n d]. unfold Qle, Qlt, Py.int. simpl. intros H0 H1.
  apply Z.quot_small. lia.
Qed.

Lemma deque_append_no_room (x : Q) :
  deque_append (mkDeque [] 0) x = mkDeque [] 0.
Proof. reflexivity. Qed.

(** A quotient of moderate size is no infinity. *)
Lemma int_of_quotient_moderate (x : Q) :
  - inject_Z (2 ^ 64) <= x -> x <= inject_Z (2 ^ 64) ->
  int_of_quotient x = inr (Py.int x).
Proof.
  intros Hlo Hhi. unfold int_of_quotient.
  destruct (Qle_bool FLOAT_LIMIT (Qabs x)) eqn:E; [exfalso|reflexivity].
  apply Qle_bool_iff in E.
  assert (Habs : Qabs x <= inject_Z (2 ^ 64))
    by (apply Qabs_Qle_condition; split; assumption).
  assert (Hlim : inject_Z (2 ^ 64) < FLOAT_LIMIT) by reflexivity.
  apply (Qlt_irrefl FLOAT_LIMIT).
  eapply Qle_lt_trans; [exact E|]. eapply Qle_lt_trans; [exact Habs|exact Hlim].
Qed.

Lemma int_of_quotient_unit (x : Q) :
  0 <= x -> x < 1 -> int_of_quotient x = inr 0%Z.
Proof.
  intros H0 H1. rewrite int_of_quotient_moderate.
  - now rewrite int_below_one.
  - eapply Qle_trans; [|exact H0]. discriminate.
  - eapply Qle_trans; [apply Qlt_le_weak, H1|]. discriminate.
Qed.

(** [deque(init, maxlen=n)], case by case. *)
Lemma deque_new_fits (init : list Q) (n : Z) :
  (0 <= n <= SSIZE_MAX)%Z ->
  deque_new init n = inr (fold_left deque_append init (mkDeque [] (Z.to_nat n))).
Proof.
  intro H. unfold deque_new.
  destruct (Z.ltb_spec n (- SSIZE_MAX - 1)); [unfold SSIZE_MAX in *; lia|].
  destruct (Z.ltb_spec SSIZE_MAX n); [lia|].
  destruct (Z.ltb_spec n 0); [lia|reflexivity].
Qed.

Lemma deque_new_negative (init : list Q) (n : Z) :
  (- SSIZE_MAX - 1 <= n < 0)%Z -> deque_new init n = inl maxlen_negative.
Proof.
  intro H. unfold deque_new.
  destruct (Z.ltb_spec n (- SSIZE_MAX - 1)); [lia|].
  destruct (Z.ltb_spec SSIZE_MAX n); [unfold SSIZE_MAX in *; lia|].
  destruct (Z.ltb_spec n 0); [reflexivity|lia].
Qed.

Lemma deque_new_overflow (init : list Q) (n : Z) :
  (n < - SSIZE_MAX - 1 \/ SSIZE_MAX < n)%Z ->
  deque_new init n = inl ssize_overflow.
Proof.
  intro H. unfold deque_new.
  destruct (Z.ltb_spec n (- SSIZE_MAX - 1)); [reflexivity|].
  destruct (Z.ltb_spec SSIZE_MAX n); [reflexivity|lia].
Qed.

(** C9, on the code.  With a block duration above the 10000 ms window the
    capacity [int(norm_duration / block_duration)] is 0: the seed is dropped
    as soon as the history is made, so the history starts empty, and an
    append leaves it empty. *)
Theorem band_history_empty_when_blocks_outlast_window
    (args : Args) (samplerate : Q) (s : State) :
  norm_duration < block_duration args ->
  prev_amps (state_of (setup args samplerate s)) = mkDeque [] 0 /\
  forall x, deque_append (mkDeque [] 0) x = mkDeque [] 0.
Proof.
  intro Hbd. split; [|exact deque_append_no_room].
  assert (Hpos : 0 < block_duration args).
  { eapply Qlt_trans; [|exact Hbd]. reflexivity. }
  assert (Hnz : ~ block_duration args == 0).
  { intro E. rewrite E in Hpos. discriminate. }
  unfold setup.
  rewrite bind_emit, state_of_after.
  rewrite (py_div_nonzero _ _ Hnz), bind_lift_inr.
  rewrite int_of_quotient_unit, bind_lift_inr.
  - change (deque_new [eps] 0) with (@inr exn deque (mkDeque [] 0)).
    rewrite bind_lift_inr, bind_modify.
    rewrite (py_div_nonzero _ _ Hnz), bind_lift_inr.
    rewrite (int_of_quotient_unit (delay / block_duration args)),
      bind_lift_inr.
    + change (deque_new [] (Z.max 1 0)) with (@inr exn deque (mkDeque [] 1)).
      rewrite bind_lift_inr, bind_modify. reflexivity.
    + apply Qle_shift_div_l; [exact Hpos|]. rewrite Qmult_0_l. discriminate.
    + apply Qlt_shift_div_r; [exact Hpos|]. rewrite Qmult_1_l.
      eapply Qlt_trans; [|exact Hbd]. reflexivity.
  - apply Qle_shift_div_l; [exact Hpos|]. rewrite Qmult_0_l. discriminate.
  - apply Qlt_shift_div_r; [exact Hpos|]. rewrite Qmult_1_l. exact Hbd.
Qed.

Lemma band_history_empty_witness :
  prev_amps
    (state_of
       (setup (mkArgs false 20000 (255, 0, 0)%Z (PyInt 10) (0, 200) false)
          44100 (boot default_args))) = mkDeque [] 0.
Proof.
  apply (band_history_empty_when_blocks_outlast_window
           (mkArgs false 20000 (255, 0, 0)%Z (PyInt 10) (0, 200) false)
           44100 (boot default_args)).
  reflexivity.
Defined.

(** ** C2: the band of the spectrum *)

Lemma mul_length (a b : list Q) :
  length (np.mul a b) = Nat.min (length a) (length b).
Proof.
  revert b. induction a as [|x a IH]; intros [|y b]; simpl; auto.
Qed.

Lemma half_len_div {A} (l : list A) : half_len l = (length l / 2)%nat.
Proof.
  unfold half_len, Py.int. cbn [Qdiv Qinv Qmult inject_Z Qnum Qden Z.mul Pos.mul].
  rewrite Z.mul_1_r.
  rewrite Z.quot_div_nonneg by lia.
  change 2%Z with (Z.of_nat 2). rewrite <- Nat2Z.inj_div. apply Nat2Z.id.
Qed.

Lemma fftfreq_length (n : nat) (d : Q) :
  length (np.fftfreq n d) = ((n - 1) / 2 + 1 + n / 2)%nat.
Proof.
  unfold np.fftfreq. now rewrite length_map, length_app, !length_map, !length_seq.
Qed.

Lemma fftfreq_nth (n i : nat) (d : Q) :
  (i < (n - 1) / 2 + 1)%nat ->
  nth_error (np.fftfreq n d) i =
  Some (inject_Z (Z.of_nat i) * (1 / (inject_Z (Z.of_nat n) * d))).
Proof.
  intro Hi. unfold np.fftfreq.
  rewrite nth_error_map, nth_error_app1 by (now rewrite length_map, length_seq).
  rewrite nth_error_map, nth_error_seq.
  apply Nat.ltb_lt in Hi. rewrite Hi. reflexivity.
Qed.

Lemma where_from_In (mask : list bool) :
  forall k j, nth_error mask j = Some true -> In (k + j)%nat (np.where_from k mask).
Proof.
  induction mask as [|m mask IH]; intros k j Hj; [destruct j; discriminate|].
  destruct j as [|j]; simpl in Hj.
  - injection Hj as ->. simpl. left. lia.
  - specialize (IH (S k) j Hj). replace (k + S j)%nat with (S k + j)%nat by lia.
    simpl. destruct m; [right|]; exact IH.
Qed.

Lemma take_overrun (a : list Q) (idx : list nat) (i : nat) :
  In i idx -> (length a <= i)%nat -> np.take a idx = inl IndexError.
Proof.
  intros Hin Hlen. induction idx as [|j idx IH]; [contradiction|].
  simpl. destruct (nth_error a j) as [x|] eqn:E; [|reflexivity].
  destruct Hin as [->|Hin].
  - apply nth_error_None in Hlen. congruence.
  - now rewrite (IH Hin).
Qed.

Lemma half_bounds (n i : nat) :
  (i < n / 2)%nat -> (2 <= n /\ i < (n - 1) / 2 + 1)%nat.
Proof.
  intro Hi.
  pose proof (Nat.div_mod_eq n 2) as E.
  pose proof (Nat.mod_upper_bound n 2 ltac:(lia)) as Hm.
  pose proof (Nat.div_mod_eq (n - 1) 2) as E1.
  pose proof (Nat.mod_upper_bound (n - 1) 2 ltac:(lia)) as Hm1.
  lia.
Qed.

Section Band.

Context (args : Args) (samplerate : Q).
Context (hanning : nat -> list Q) (rfft_abs : list Q -> list Q).

(** The frequency that the code computes for bin [i] is the bin's centre. *)
Lemma code_freq_is_bin_freq (n i : nat) :
  (0 < n)%nat -> 0 < samplerate ->
  inject_Z (Z.of_nat i) * (1 / (inject_Z (Z.of_nat n) * (1 / samplerate)))
  == bin_freq samplerate n i.
Proof.
  intros Hn Hsr. unfold bin_freq.
  assert (Hn0 : ~ inject_Z (Z.of_nat n) == 0).
  { unfold Qeq. simpl. lia. }
  assert (Hs0 : ~ samplerate == 0).
  { intro E. rewrite E in Hsr. discriminate. }
  field. auto.
Qed.

(** C2, on the code.  [rfft] already returns the non-negative half of the
    spectrum, and the code halves it again, while the frequency mask runs
    over the whole first half.  So whenever the band holds a bin [i] of the
    first half that lies past the halved spectrum, the selection raises
    IndexError: no amplitude is computed, and the handler makes no actuator
    call for the block. *)
Theorem band_overruns_halved_spectrum (indata : list Q) (i : nat) :
  let n := length indata in
  length (hanning n) = n ->
  length (rfft_abs (np.mul indata (hanning n))) = (n / 2 + 1)%nat ->
  0 < samplerate ->
  ((n / 2 + 1) / 2 <= i < n / 2)%nat ->
  low args <= bin_freq samplerate n i /\ bin_freq samplerate n i < high args ->
  band_amplitude args samplerate hanning rfft_abs indata = inl IndexError /\
  (forall status s,
     Py.any indata = true ->
     res_of (callback args samplerate hanning rfft_abs indata status s)
       = inl IndexError /\
     pwm_calls
       (out_of (callback args samplerate hanning rfft_abs indata status s))
       = []).
Proof.
  cbv zeta. intros Hh Hf Hsr [Hlo Hhi] [Hflo Hfhi].
  destruct (half_bounds _ _ Hhi) as [Hn Hpos].
  assert (Hband :
    band_amplitude args samplerate hanning rfft_abs indata = inl IndexError).
  { unfold band_amplitude.
    assert (Hs0 : ~ samplerate == 0).
    { intro E. rewrite E in Hsr. discriminate. }
    rewrite (py_div_nonzero _ _ Hs0). cbn [ebind].
    assert (Hdata : length (np.mul indata (hanning (length indata)))
                    = length indata).
    { rewrite mul_length, Hh. apply Nat.min_id. }
    rewrite Hdata.
    erewrite take_overrun with (i := i); [reflexivity| |].
    - apply (where_from_In _ 0%nat i).
      rewrite nth_error_map, nth_error_firstn.
      rewrite half_len_div, fftfreq_length.
      assert (Hi' : (i <? ((length indata - 1) / 2 + 1 + length indata / 2) / 2)%nat
                    = true).
      { apply Nat.ltb_lt.
        pose proof (Nat.div_mod_eq (length indata) 2).
        pose proof (Nat.mod_upper_bound (length indata) 2 ltac:(lia)).
        pose proof (Nat.div_mod_eq (length indata - 1) 2).
        pose proof (Nat.mod_upper_bound (length indata - 1) 2 ltac:(lia)).
        pose proof (Nat.div_mod_eq
                      ((length indata - 1) / 2 + 1 + length indata / 2) 2).
        pose proof (Nat.mod_upper_bound
                      ((length indata - 1) / 2 + 1 + length indata / 2) 2
                      ltac:(lia)).
        lia. }
      rewrite Hi', (fftfreq_nth _ _ _ Hpos). cbn [option_map]. f_equal.
      pose proof (code_freq_is_bin_freq (length indata) i ltac:(lia) Hsr) as Heq.
      apply andb_true_intro. split.
      + apply Qle_bool_iff. rewrite Heq. exact Hflo.
      + apply Qltb_lt. rewrite Heq. exact Hfhi.
    - rewrite length_firstn, half_len_div, Hf.
      etransitivity; [apply Nat.le_min_l|exact Hlo]. }
  split; [exact Hband|].
  intros status s Hany.
  rewrite (callback_band_error _ _ _ _ _ _ _ _ Hany Hband).
  split; [reflexivity|].
  cbn [out_of snd]. rewrite app_nil_r. apply pwm_calls_banner_only.
Qed.

End Band.

(** ** The band where the halved spectrum reaches *)






Section Band_sum.

Context (args : Args) (samplerate : Q).
Context (hanning : nat -> list Q) (rfft_abs : list Q -> list Q).



End Band_sum.

(** ** The band-energy history within its window *)

Lemma deque_append_within (c : nat) (d : deque) (x : Q) :
  within_capacity c d -> within_capacity c (deque_append d x).
Proof.
  intros [[H1 H2] Hc]. unfold within_capacity, deque_append.
  rewrite Hc. destruct c as [|c]; [lia|].
  destruct (Nat.ltb_spec (length (items d)) (S c)); cbn [items maxlen].
  - rewrite length_app. simpl. lia.
  - rewrite length_app. destruct (items d); simpl in *; lia.
Qed.

Lemma int_at_least_one (x : Q) : 1 <= x -> (1 <= Py.int x)%Z.
Proof.
  destruct x as [n d]. unfold Qle, Py.int. simpl. intro H.
  rewrite Z.quot_div_nonneg by lia.
  apply Z.div_le_lower_bound; lia.
Qed.

Lemma int_floor (x : Q) : 0 <= x -> Py.int x = Qfloor x.
Proof.
  destruct x as [a d]. unfold Qle, Py.int, Qfloor. cbn [Qnum Qden].
  intro H. apply Z.quot_div_nonneg; lia.
Qed.

Lemma int_bounds (x : Q) :
  0 <= x ->
  (0 <= Py.int x)%Z /\ inject_Z (Py.int x) <= x /\ x - 1 < inject_Z (Py.int x).
Proof.
  intro H. rewrite (int_floor x H).
  pose proof (Qfloor_le x) as Hle. pose proof (Qlt_floor x) as Hlt.
  rewrite inject_Z_plus in Hlt.
  split; [|split; [exact Hle|]].
  - change 0%Z with (Qfloor 0). now apply Qfloor_resp_le.
  - change (inject_Z 1) with 1 in Hlt. lra.
Qed.

Lemma adjust_gain_keeps_prev_amps (response : string) :
  keeps prev_amps (adjust_gain response).
Proof. apply adjust_gain_keeps. reflexivity. Qed.

Section History.

Context (args : Args) (samplerate : Q).
Context (hanning : nat -> list Q) (rfft_abs : list Q -> list Q).

Local Abbreviation cb := (callback args samplerate hanning rfft_abs).
Local Abbreviation run_stream := (stream args samplerate hanning rfft_abs).

(** A block leaves the history as it was, or with one value appended. *)
Lemma callback_prev_amps (indata : list Q) (status : option string) (s : State) :
  prev_amps (state_of (cb indata status s)) = prev_amps s \/
  exists x, prev_amps (state_of (cb indata status s))
            = deque_append (prev_amps s) x.
Proof.
  destruct (faded_frame args s) as (Hp & _ & _ & _).
  destruct (Py.any indata) eqn:Hany.
  - destruct (band_amplitude args samplerate hanning rfft_abs indata)
      as [e|amp] eqn:Hamp.
    + left. rewrite (callback_band_error _ _ _ _ _ _ _ _ Hany Hamp). exact Hp.
    + right. rewrite (callback_processed _ _ _ _ _ _ _ _ Hany Hamp).
      rewrite state_of_after, drive_keeps_prev_amps.
      unfold floor_updated. cbn [prev_amps set_prev_amps]. rewrite Hp.
      eexists. reflexivity.
  - left. rewrite (callback_no_input _ _ _ _ _ _ _ Hany). exact Hp.
Qed.

Lemma callback_within (c : nat) (indata : list Q) (status : option string) (s : State) :
  within_capacity c (prev_amps s) ->
  within_capacity c (prev_amps (state_of (cb indata status s))).
Proof.
  intro H. destruct (callback_prev_amps indata status s) as [E|[x E]];
    rewrite E; [exact H|apply deque_append_within, H].
Qed.

Lemma stream_within (c : nat) (inputs : list input) :
  forall (active : bool) (s : State),
    within_capacity c (prev_amps s) ->
    within_capacity c (prev_amps (state_of (run_stream active inputs s))).
Proof.
  induction inputs as [|i rest IH]; intros active s Hs; [exact Hs|].
  destruct i as [indata status|response| |kind msg]; simpl; try exact Hs.
  - destruct active; [|apply IH, Hs].
    pose proof (callback_within c indata status s Hs) as Hcb.
    destruct (cb indata status s) as [[res s1] o1].
    match goal with
    | |- context [stream _ _ _ _ ?a rest s1] =>
        pose proof (IH a s1 Hcb) as Hrest;
        destruct (stream args samplerate hanning rfft_abs a rest s1)
          as [[res2 s2] o2]
    end.
    exact Hrest.
  - destruct (quits response); [exact Hs|].
    rewrite state_of_bind.
    pose proof (adjust_gain_keeps_prev_amps response s) as Hk.
    destruct (res_of (adjust_gain response s)).
    + now rewrite Hk.
    + apply IH. now rewrite Hk.
Qed.

Lemma setup_within (s : State) :
  (1 # 100000) <= block_duration args -> block_duration args <= norm_duration ->
  res_of (setup args samplerate s) = inr tt /\
  within_capacity
    (Z.to_nat (Py.int (norm_duration / block_duration args)))
    (prev_amps (state_of (setup args samplerate s))).
Proof.
  intros Hlow Hle.
  assert (Hpos : 0 < block_duration args) by (eapply Qlt_le_trans; [|exact Hlow]; reflexivity).
  assert (Hnz : ~ block_duration args == 0).
  { intro E. rewrite E in Hpos. discriminate. }
  assert (Hq1 : 1 <= norm_duration / block_duration args).
  { apply Qle_shift_div_l; [exact Hpos|]. rewrite Qmult_1_l. exact Hle. }
  assert (Hq2 : norm_duration / block_duration args <= 1000000000).
  { apply Qle_shift_div_r; [exact Hpos|]. unfold norm_duration. lra. }
  assert (Hd1 : 0 <= delay / block_duration args).
  { apply Qle_shift_div_l; [exact Hpos|]. rewrite Qmult_0_l. discriminate. }
  assert (Hd2 : delay / block_duration args <= 30000000).
  { apply Qle_shift_div_r; [exact Hpos|]. unfold delay. lra. }
  pose proof (int_at_least_one _ Hq1) as Hcap.
  assert (Hq0 : 0 <= norm_duration / block_duration args) by lra.
  destruct (int_bounds _ Hq0) as (_ & Hup & _).
  destruct (int_bounds _ Hd1) as (Hd0 & Hdup & _).
  assert (Hfit1 : (Py.int (norm_duration / block_duration args) <= 1000000000)%Z).
  { rewrite Zle_Qle. eapply Qle_trans; [exact Hup|exact Hq2]. }
  assert (Hfit2 : (Py.int (delay / block_duration args) <= 30000000)%Z).
  { rewrite Zle_Qle. eapply Qle_trans; [exact Hdup|exact Hd2]. }
  assert (Hbig : 30000000 <= inject_Z (2 ^ 64)) by discriminate.
  assert (Hbig' : 1000000000 <= inject_Z (2 ^ 64)) by discriminate.
  assert (Hneg : - inject_Z (2 ^ 64) <= 0) by discriminate.
  unfold setup.
  rewrite bind_emit, state_of_after, res_of_after.
  rewrite (py_div_nonzero _ _ Hnz), bind_lift_inr.
  rewrite int_of_quotient_moderate, bind_lift_inr
    by (eapply Qle_trans; eassumption).
  rewrite deque_new_fits by (unfold SSIZE_MAX; lia).
  rewrite bind_lift_inr, bind_modify.
  rewrite (py_div_nonzero _ _ Hnz), bind_lift_inr.
  rewrite int_of_quotient_moderate, bind_lift_inr
    by (eapply Qle_trans; eassumption).
  rewrite deque_new_fits by (unfold SSIZE_MAX; lia).
  rewrite bind_lift_inr, bind_modify.
  split; [reflexivity|].
  cbn [state_of fst snd modify prev_amps set_noise_thresh set_norm_amps
       set_prev_amps fold_left].
  destruct (Z.to_nat (Py.int (norm_duration / block_duration args)))
    as [|c] eqn:Ec; [lia|].
  unfold within_capacity, deque_append. cbn. split; [lia|reflexivity].
Qed.

(** X1.  With a block duration from 0.00001 ms up to the 10000 ms window,
    startup returns and the band-energy history is never empty and never
    longer than its capacity: after [setup], and after any feed of blocks
    and lines to the open stream.  The capacity is the window divided by
    the block duration, to within one. *)
Theorem band_history_within_capacity (inputs : list input) :
  (1 # 100000) <= block_duration args -> block_duration args <= norm_duration ->
  let s0 := state_of (setup args samplerate (boot args)) in
  exists capacity : nat,
    norm_duration / block_duration args - 1 < inject_Z (Z.of_nat capacity) /\
    inject_Z (Z.of_nat capacity) <= norm_duration / block_duration args + 1 /\
    res_of (setup args samplerate (boot args)) = inr tt /\
    within_capacity capacity (prev_amps s0) /\
    forall active,
      within_capacity capacity
        (prev_amps (state_of (run_stream active inputs s0))).
Proof.
  intros Hlow Hle. cbv zeta.
  destruct (setup_within (boot args) Hlow Hle) as [Hres H0].
  exists (Z.to_nat (Py.int (norm_duration / block_duration args))).
  assert (Hq0 : 0 <= norm_duration / block_duration args).
  { apply Qle_shift_div_l; [|rewrite Qmult_0_l; discriminate].
    eapply Qlt_le_trans; [|exact Hlow]. reflexivity. }
  destruct (int_bounds _ Hq0) as (Hnn & Hup & Hdown).
  rewrite Z2Nat.id by exact Hnn.
  split; [exact Hdown|]. split; [lra|]. split; [exact Hres|].
  split; [exact H0|]. intro active. apply stream_within, H0.
Qed.

End History.

(** ** The theorems at concrete blocks *)

Lemma band_overruns_halved_spectrum_witness :
  band_amplitude wide_args 44100 flat_window abs_spectrum (repeat 1 1102)
  = inl IndexError.
Proof.
  refine (proj1 (band_overruns_halved_spectrum wide_args 44100 flat_window
                   abs_spectrum (repeat 1 1102) 276%nat _ _ _ _ _)).
  - vm_compute. reflexivity.
  - vm_compute. reflexivity.
  - reflexivity.
  - vm_compute. lia.
  - vm_compute. split; [discriminate|reflexivity].
Defined.


Lemma noise_floor_monotone_witness :
  noise_thresh
    (state_of (callback demo_args 8 flat_window abs_spectrum
                 [1; 2; 3; 4; 5; 6; 7; 8] None idle_state))
  == Qmin (noise_thresh idle_state) 3.
Proof.
  destruct (noise_floor_monotone demo_args 8 flat_window abs_spectrum
              [1; 2; 3; 4; 5; 6; 7; 8] None idle_state) as (_ & H & _).
  apply (H 3); reflexivity.
Defined.

Lemma band_history_within_capacity_witness :
  exists capacity : nat,
    norm_duration / block_duration demo_args - 1
      < inject_Z (Z.of_nat capacity) /\
    inject_Z (Z.of_nat capacity)
      <= norm_duration / block_duration demo_args + 1 /\
    res_of (setup demo_args 8 (boot demo_args)) = inr tt /\
    within_capacity capacity
      (prev_amps (state_of (setup demo_args 8 (boot demo_args)))) /\
    forall active,
      within_capacity capacity
        (prev_amps
           (state_of
              (stream demo_args 8 flat_window abs_spectrum active
                 [Block [1; 2; 3; 4; 5; 6; 7; 8] None; Line "+"; Line "q"]
                 (state_of (setup demo_args 8 (boot demo_args)))))).
Proof.
  apply (band_history_within_capacity demo_args 8 flat_window abs_spectrum
           [Block [1; 2; 3; 4; 5; 6; 7; 8] None; Line "+"; Line "q"]);
    discriminate.
Defined.


(** ** A processed block, from amplitude to duty cycles *)

Lemma curved_norm_in01 (val : Q) (history : list Q) (margin c : Q) :
  curved_norm val history margin = inr c -> in01 c.
Proof.
  unfold curved_norm. destruct (normalize val history margin) as [e|n];
    [discriminate|].
  cbn [ebind]. intro H. injection H as <-. apply bounded_range. discriminate.
Qed.

Lemma arange_from_one (n : nat) :
  np.arange 1 (Z.of_nat n + 1) =
  map (fun k => inject_Z (1 + Z.of_nat k)) (seq 0 n).
Proof.
  unfold np.arange. replace (Z.of_nat n + 1 - 1)%Z with (Z.of_nat n) by lia.
  now rewrite Nat2Z.id.
Qed.

Lemma arange_from_one_length (n : nat) :
  length (np.arange 1 (Z.of_nat n + 1)) = n.
Proof. now rewrite arange_from_one, length_map, length_seq. Qed.

Lemma arange_from_one_positive (n : nat) :
  Forall (fun x => 0 < x) (np.arange 1 (Z.of_nat n + 1)).
Proof.
  rewrite arange_from_one. apply Forall_forall. intros x Hx.
  apply in_map_iff in Hx. destruct Hx as (k & <- & _).
  unfold Qlt. cbn [Qnum Qden inject_Z]. lia.
Qed.

(** A weighted sum of brightnesses is at most the sum of the weights. *)
Lemma weighted_sum_bounds (a : list Q) :
  forall w, length a = length w ->
    Forall in01 a -> Forall (fun x => 0 < x) w ->
    0 <= np.sum (np.mul a w) <= np.sum w /\ (w <> [] -> 0 < np.sum w).
Proof.
  induction a as [|x a IH]; intros [|y w] Hlen Ha Hw; try discriminate.
  - split; [split; apply Qle_refl|]. intro H. now contradiction H.
  - inversion Ha as [|? ? [Hx0 Hx1] Ha']. inversion Hw as [|? ? Hy Hw']. subst.
    injection Hlen as Hlen.
    destruct (IH w Hlen Ha' Hw') as [[H0 H1] Hpos].
    cbn [np.mul np.sum fold_right]. fold (np.sum (np.mul a w)). fold (np.sum w).
    assert (Hsw : 0 <= np.sum w) by (eapply Qle_trans; eassumption).
    assert (Hxy0 : 0 <= x * y).
    { apply Qmult_le_0_compat; [exact Hx0|apply Qlt_le_weak, Hy]. }
    assert (Hxy1 : x * y <= y).
    { rewrite <- (Qmult_1_l y) at 2.
      apply Qmult_le_compat_r; [exact Hx1|apply Qlt_le_weak, Hy]. }
    split; [split|intros _]; lra.
Qed.

Lemma average_in01 (a w : list Q) :
  length a = length w -> w <> [] ->
  Forall in01 a -> Forall (fun x => 0 < x) w ->
  exists v, np.average a w = inr v /\ in01 v.
Proof.
  intros Hlen Hne Ha Hw.
  destruct (weighted_sum_bounds a w Hlen Ha Hw) as [[H0 H1] Hpos].
  specialize (Hpos Hne). unfold np.average.
  destruct (Qeq_bool (np.sum w) 0) eqn:E.
  - apply Qeq_bool_iff in E. rewrite E in Hpos. discriminate.
  - eexists. split; [reflexivity|]. split.
    + apply Qle_shift_div_l; [exact Hpos|]. now rewrite Qmult_0_l.
    + apply Qle_shift_div_r; [exact Hpos|]. now rewrite Qmult_1_l.
Qed.

Lemma deque_append_in01 (d : deque) (x : Q) :
  Forall in01 (items d) -> in01 x -> Forall in01 (items (deque_append d x)).
Proof.
  intros Hd Hx. unfold deque_append. destruct (maxlen d); [exact Hd|].
  destruct (length (items d) <? S n)%nat; cbn [items];
    apply Forall_app; split; try (constructor; [exact Hx|constructor]).
  - exact Hd.
  - destruct (items d); [constructor|]. now inversion Hd.
Qed.

Lemma deque_append_length (d : deque) (x : Q) :
  (0 < maxlen d)%nat ->
  (1 <= length (items (deque_append d x)))%nat /\
  ((length (items d) <= maxlen d)%nat ->
   (length (items (deque_append d x)) <= maxlen d)%nat).
Proof.
  intro Hm. unfold deque_append. destruct (maxlen d) as [|n] eqn:E; [lia|].
  destruct (Nat.ltb_spec (length (items d)) (S n)); cbn [items];
    rewrite length_app; simpl; split; try lia.
  intro Hle. destruct (items d); simpl in *; lia.
Qed.

(** With a brightness in [0,1], a channel of at most 255 passes the guard,
    and a channel in [0,255] gives a duty in [0,255]. *)
Lemma duty_forwarded (z : Z) (bright : Q) :
  (z <= 255)%Z -> in01 bright -> Py.Qltb 255 (inject_Z z * bright) = false.
Proof.
  intros Hz [H0 H1]. apply Qltb_ge.
  assert (Hq : inject_Z z <= 255).
  { change 255 with (inject_Z 255). now rewrite <- Zle_Qle. }
  destruct (Qlt_le_dec (inject_Z z) 0); nra.
Qed.

Lemma duty_in_range (z : Z) (bright : Q) :
  channel_ok z -> in01 bright -> 0 <= inject_Z z * bright <= 255.
Proof.
  intros [Hz0 Hz1] [H0 H1].
  assert (Hq : inject_Z z <= 255).
  { change 255 with (inject_Z 255). now rewrite <- Zle_Qle. }
  assert (Hq0 : 0 <= inject_Z z).
  { change 0 with (inject_Z 0). now rewrite <- Zle_Qle. }
  split; nra.
Qed.

(** [drive] on a history that is not empty: it never raises, it leaves a
    brightness history of brightnesses, and it makes the three calls. *)
Lemma drive_completes (a : Q) (s : State) :
  items (prev_amps s) <> [] -> (0 < maxlen (norm_amps s))%nat ->
  Forall in01 (items (norm_amps s)) ->
  (r s <= 255)%Z -> (g s <= 255)%Z -> (b s <= 255)%Z ->
  exists na bright,
    drive a s =
      (inr tt, set_norm_amps s na,
       lights s bright
       ++ [print (Py.str_repeat (Z.to_nat (Py.int (a / 10))) "-")]) /\
    in01 bright /\
    np.average (items na) (np.arange 1 (Z.of_nat (length (items na)) + 1))
      = inr bright /\
    Forall in01 (items na) /\
    maxlen na = maxlen (norm_amps s) /\
    (1 <= length (items na))%nat /\
    ((length (items (norm_amps s)) <= maxlen (norm_amps s))%nat ->
     (length (items na) <= maxlen na)%nat).
Proof.
  intros Hne Hn Hin Hr Hg Hb.
  destruct (np.std_lt (items (prev_amps s)) 1) eqn:Hstd.
  - rewrite (drive_silent a s Hn Hstd).
    exists (mkDeque [0] (maxlen (norm_amps s))), 0.
    split; [reflexivity|]. split; [split; discriminate|].
    split; [reflexivity|]. split; [repeat constructor; discriminate|].
    split; [reflexivity|]. split; [simpl; lia|]. intros _. simpl. lia.
  - destruct (curved_norm_defined a (items (prev_amps s)) Hne) as [c Hc].
    pose proof (curved_norm_in01 _ _ _ _ Hc) as Hc01.
    set (na := deque_append (norm_amps s) c).
    assert (Hna01 : Forall in01 (items na))
      by (apply deque_append_in01; assumption).
    destruct (deque_append_length (norm_amps s) c Hn) as [Hlen1 Hlen2].
    fold na in Hlen1, Hlen2.
    destruct (average_in01 (items na)
                (np.arange 1 (Z.of_nat (length (items na)) + 1)))
      as (bright & Hav & Hb01).
    { now rewrite arange_from_one_length. }
    { intro E. apply (f_equal (@length Q)) in E.
      rewrite arange_from_one_length in E. simpl in E. lia. }
    { exact Hna01. }
    { apply arange_from_one_positive. }
    exists na, bright.
    split.
    { unfold drive. rewrite bind_get, Hc, bind_lift_inr, bind_modify, bind_get.
      cbn [prev_amps set_norm_amps]. rewrite Hstd. unfold when.
      rewrite bind_ret, bind_get. cbn [norm_amps set_norm_amps]. fold na.
      rewrite Hav, bind_lift_inr.
      rewrite bind_get, bind_setLights.
      cbn [r g b set_norm_amps].
      rewrite (duty_forwarded _ _ Hr Hb01).
      rewrite bind_get, bind_setLights. cbn [r g b set_norm_amps].
      rewrite (duty_forwarded _ _ Hg Hb01).
      rewrite bind_get, bind_setLights. cbn [r g b set_norm_amps].
      rewrite (duty_forwarded _ _ Hb Hb01).
      reflexivity. }
    split; [exact Hb01|]. split; [exact Hav|]. split; [exact Hna01|].
    split; [apply deque_append_maxlen|]. split; [exact Hlen1|].
    intro Hle. unfold na at 2. rewrite deque_append_maxlen. auto.
Qed.

Lemma rgb_set_rgb (s : State) (c : Z * Z * Z) : rgb (set_rgb s c) = c.
Proof. destruct c as [[r' g'] b']. reflexivity. Qed.

Lemma faded_rgb (args : Args) (s : State) :
  rgb (faded args s) = if fade args then fadeStep 1 (rgb s) else rgb s.
Proof. unfold faded. destruct (fade args); [apply rgb_set_rgb|reflexivity]. Qed.

Lemma faded_rgb_ok (args : Args) (s : State) :
  rgb_ok (rgb s) -> rgb_ok (rgb (faded args s)).
Proof.
  intro H. rewrite faded_rgb. destruct (fade args); [|exact H].
  apply fadeStep_rgb_ok, H.
Qed.

Lemma lights_duty_ok (s : State) (bright : Q) :
  rgb_ok (rgb s) -> in01 bright -> Forall duty_ok (lights s bright).
Proof.
  intros (Hr & Hg & Hb) Hb01. unfold lights.
  repeat constructor; cbn [duty_ok]; apply duty_in_range; assumption.
Qed.

Section Processed.

Context (args : Args) (samplerate : Q).
Context (hanning : nat -> list Q) (rfft_abs : list Q -> list Q).

Local Abbreviation cb := (callback args samplerate hanning rfft_abs).


End Processed.


(** ** The brightness history along the stream *)

Lemma drive_empty_history (a : Q) (s : State) :
  items (prev_amps s) = [] -> drive a s = (inl IndexError, s, []).
Proof.
  intro E. unfold drive. rewrite bind_get, E. reflexivity.
Qed.

(** Whatever the colour, [drive] leaves a brightness history that is in
    order. *)
Lemma drive_bright_history (c : nat) (a : Q) (s : State) :
  bright_history_ok c (norm_amps s) ->
  bright_history_ok c (norm_amps (state_of (drive a s))).
Proof.
  intros (Hin & Hlen & Hmax & Hc).
  destruct (items (prev_amps s)) as [|x0 rest] eqn:Eprev.
  { rewrite (drive_empty_history a s Eprev). repeat split; assumption. }
  assert (Hne : items (prev_amps s) <> []) by (rewrite Eprev; discriminate).
  assert (Hn : (0 < maxlen (norm_amps s))%nat) by lia.
  destruct (np.std_lt (items (prev_amps s)) 1) eqn:Hstd.
  - rewrite (drive_silent a s Hn Hstd). cbn [state_of fst snd norm_amps set_norm_amps].
    repeat split; cbn [items maxlen length]; try lia.
    repeat constructor; discriminate.
  - destruct (curved_norm_defined a (items (prev_amps s)) Hne) as [v Hv].
    pose proof (curved_norm_in01 _ _ _ _ Hv) as Hv01.
    destruct (deque_append_length (norm_amps s) v Hn) as [Hlen1 Hlen2].
    destruct (average_in01 (items (deque_append (norm_amps s) v))
                (np.arange 1
                   (Z.of_nat (length (items (deque_append (norm_amps s) v))) + 1)))
      as (bright & Hav & _).
    { now rewrite arange_from_one_length. }
    { intro E. apply (f_equal (@length Q)) in E.
      rewrite arange_from_one_length in E. simpl in E. lia. }
    { apply deque_append_in01; assumption. }
    { apply arange_from_one_positive. }
    unfold drive. rewrite bind_get, Hv, bind_lift_inr, bind_modify, bind_get.
    cbn [prev_amps set_norm_amps]. rewrite Hstd. unfold when.
    rewrite bind_ret, bind_get. cbn [norm_amps set_norm_amps].
    rewrite Hav, bind_lift_inr.
    match goal with
    | |- bright_history_ok c (norm_amps (state_of (?m ?s0))) =>
        assert (K : keeps norm_amps m) by frame; rewrite (K s0)
    end.
    cbn [norm_amps set_norm_amps].
    repeat split.
    + apply deque_append_in01; assumption.
    + rewrite <- Hmax. apply Hlen2. lia.
    + now rewrite deque_append_maxlen.
    + exact Hc.
Qed.

Section Brightness.

Context (args : Args) (samplerate : Q).
Context (hanning : nat -> list Q) (rfft_abs : list Q -> list Q).

Local Abbreviation cb := (callback args samplerate hanning rfft_abs).
Local Abbreviation run_stream := (stream args samplerate hanning rfft_abs).

Lemma callback_bright_history
    (c : nat) (indata : list Q) (status : option string) (s : State) :
  bright_history_ok c (norm_amps s) ->
  bright_history_ok c (norm_amps (state_of (cb indata status s))).
Proof.
  intro H. destruct (faded_frame args s) as (_ & Hn & _ & _).
  destruct (Py.any indata) eqn:Hany.
  - destruct (band_amplitude args samplerate hanning rfft_abs indata)
      as [e|amp] eqn:Hamp.
    + rewrite (callback_band_error _ _ _ _ _ _ _ _ Hany Hamp).
      cbn [state_of fst snd]. now rewrite Hn.
    + rewrite (callback_processed _ _ _ _ _ _ _ _ Hany Hamp), state_of_after.
      apply drive_bright_history. unfold floor_updated.
      cbn [norm_amps set_prev_amps set_noise_thresh]. now rewrite Hn.
  - rewrite (callback_no_input _ _ _ _ _ _ _ Hany).
    cbn [state_of fst snd]. now rewrite Hn.
Qed.


(** [setup], case by case. *)
Lemma setup_cases (s : State) :
  setup args samplerate s =
  if Qeq_bool (block_duration args) 0 then
    (inl ZeroDivisionError, s, [print_sampling samplerate])
  else
    match ebind (int_of_quotient (norm_duration / block_duration args))
            (deque_new [eps]) with
    | inl e => (inl e, s, [print_sampling samplerate])
    | inr d1 =>
        match ebind (int_of_quotient (delay / block_duration args))
                (fun m => deque_new [] (Z.max 1 m)) with
        | inl e => (inl e, set_prev_amps s d1, [print_sampling samplerate])
        | inr d2 =>
            (inr tt,
             set_noise_thresh (set_norm_amps (set_prev_amps s d1) d2)
               1000000000,
             [print_sampling samplerate])
        end
    end.
Proof.
  unfold setup. rewrite bind_emit.
  unfold py_div. destruct (Qeq_bool (block_duration args) 0) eqn:E.
  { rewrite bind_lift_inl. reflexivity. }
  rewrite bind_lift_inr.
  destruct (int_of_quotient (norm_duration / block_duration args)) as [e|n].
  { rewrite bind_lift_inl. reflexivity. }
  rewrite bind_lift_inr. cbn [ebind].
  destruct (deque_new [eps] n) as [e|d1].
  { rewrite bind_lift_inl. reflexivity. }
  rewrite bind_lift_inr, bind_modify, bind_lift_inr.
  destruct (int_of_quotient (delay / block_duration args)) as [e|m].
  { rewrite bind_lift_inl. reflexivity. }
  rewrite bind_lift_inr. cbn [ebind].
  destruct (deque_new [] (Z.max 1 m)) as [e|d2].
  { rewrite bind_lift_inl. reflexivity. }
  rewrite bind_lift_inr, bind_modify. reflexivity.
Qed.

Lemma deque_new_inr (init : list Q) (n : Z) (d : deque) :
  deque_new init n = inr d ->
  d = fold_left deque_append init (mkDeque [] (Z.to_nat n)).
Proof.
  unfold deque_new.
  destruct ((n <? - SSIZE_MAX - 1) || (SSIZE_MAX <? n))%Z; [discriminate|].
  destruct (n <? 0)%Z; [discriminate|]. congruence.
Qed.

Lemma int_of_quotient_inr (x : Q) (n : Z) :
  int_of_quotient x = inr n -> n = Py.int x.
Proof.
  unfold int_of_quotient.
  destruct (Qle_bool FLOAT_LIMIT (Qabs x)); [discriminate|congruence].
Qed.

(** What [setup] leaves when it returns. *)
Lemma setup_returns (s : State) :
  res_of (setup args samplerate s) = inr tt ->
  state_of (setup args samplerate s) =
    set_noise_thresh
      (set_norm_amps
         (set_prev_amps s
            (fold_left deque_append [eps]
               (mkDeque []
                  (Z.to_nat (Py.int (norm_duration / block_duration args))))))
         (mkDeque []
            (Z.to_nat (Z.max 1 (Py.int (delay / block_duration args))))))
      1000000000.
Proof.
  rewrite setup_cases.
  destruct (Qeq_bool (block_duration args) 0); [discriminate|].
  destruct (int_of_quotient (norm_duration / block_duration args))
    as [e|n] eqn:En; [discriminate|]. cbn [ebind].
  destruct (deque_new [eps] n) as [e|d1] eqn:E1; [discriminate|].
  destruct (int_of_quotient (delay / block_duration args))
    as [e|m] eqn:Em; [discriminate|]. cbn [ebind].
  destruct (deque_new [] (Z.max 1 m)) as [e|d2] eqn:E2; [discriminate|].
  intros _. apply int_of_quotient_inr in En, Em.
  apply deque_new_inr in E1, E2. subst. reflexivity.
Qed.


End Brightness.


(** ** Every duty cycle within range *)

Lemma duty_ok_no_pwm (t : list event) : pwm_calls t = [] -> Forall duty_ok t.
Proof.
  induction t as [|e t IH]; intro H; [constructor|].
  destruct e; try discriminate; constructor; try exact I; apply IH, H.
Qed.

Lemma duty_ok_bind {A B} (m : M A) (k : A -> M B) (s : State) :
  Forall duty_ok (out_of (m s)) ->
  (forall a, res_of (m s) = inr a ->
             Forall duty_ok (out_of (k a (state_of (m s))))) ->
  Forall duty_ok (out_of (bind m k s)).
Proof.
  intros Hm Hk. rewrite out_of_bind.
  destruct (res_of (m s)) as [e|a]; [exact Hm|].
  apply Forall_app. split; [exact Hm|]. now apply Hk.
Qed.

Lemma adjust_gain_out (response : string) (s : State) :
  pwm_calls (out_of (adjust_gain response s)) = [].
Proof.
  revert s. induction response as [|ch rest IH]; intro s; simpl; [reflexivity|].
  destruct (Ascii.eqb ch "+"); [|destruct (Ascii.eqb ch "-")].
  - rewrite bind_modify. apply IH.
  - rewrite bind_get.
    destruct (number_halve (args_gain s)) as [e|x];
      [rewrite bind_lift_inl; reflexivity|].
    rewrite bind_lift_inr, bind_modify. apply IH.
  - reflexivity.
Qed.

Lemma duty_zero_banner_ok (status : option string) :
  Forall duty_ok (banner status).
Proof. destruct status; repeat constructor. Qed.

Lemma exit_event_duty_ok (res : exn + unit) : duty_ok (exit_event res).
Proof. destruct res as [[kind msg| |status]|u]; exact I. Qed.

Lemma reset_lights_run (s : State) :
  reset_lights s = (inr tt, s, reset_calls).
Proof. reflexivity. Qed.

Section Duties.

Context (args : Args) (samplerate : Q).
Context (hanning : nat -> list Q) (rfft_abs : list Q -> list Q).

Local Abbreviation cb := (callback args samplerate hanning rfft_abs).
Local Abbreviation run_stream := (stream args samplerate hanning rfft_abs).

(** A block changes the colour by the fade step and by nothing else. *)
Lemma callback_rgb (indata : list Q) (status : option string) (s : State) :
  rgb (state_of (cb indata status s)) = rgb (faded args s).
Proof.
  destruct (Py.any indata) eqn:Hany.
  - destruct (band_amplitude args samplerate hanning rfft_abs indata)
      as [e|amp] eqn:Hamp.
    + now rewrite (callback_band_error _ _ _ _ _ _ _ _ Hany Hamp).
    + rewrite (callback_processed _ _ _ _ _ _ _ _ Hany Hamp), state_of_after.
      now rewrite drive_keeps_rgb.
  - now rewrite (callback_no_input _ _ _ _ _ _ _ Hany).
Qed.

Lemma callback_duty_ok
    (c : nat) (indata : list Q) (status : option string) (s : State) :
  sane c s -> Forall duty_ok (out_of (cb indata status s)).
Proof.
  intros [Hrgb (Hin & Hlen & Hmax & Hc)].
  pose proof (faded_rgb_ok args s Hrgb) as Hfrgb.
  destruct (faded_frame args s) as (Hfp & Hfn & _ & _).
  destruct (Py.any indata) eqn:Hany.
  - destruct (band_amplitude args samplerate hanning rfft_abs indata)
      as [e|amp] eqn:Hamp.
    + rewrite (callback_band_error _ _ _ _ _ _ _ _ Hany Hamp).
      cbn [out_of snd]. rewrite app_nil_r. apply duty_zero_banner_ok.
    + rewrite (callback_processed _ _ _ _ _ _ _ _ Hany Hamp), out_of_after.
      apply Forall_app. split; [apply duty_zero_banner_ok|].
      set (s2 := floor_updated amp (faded args s)).
      destruct (items (prev_amps s2)) as [|x0 rest] eqn:Eprev.
      * rewrite (drive_empty_history _ s2 Eprev). constructor.
      * assert (Hrgb2 : rgb_ok (rgb s2)) by exact Hfrgb.
        pose proof Hrgb2 as ([_ Hr] & [_ Hg] & [_ Hb]).
        destruct (drive_completes (adjusted amp (faded args s)) s2)
          as (na & bright & Hrun & Hb01 & _); try assumption.
        { rewrite Eprev. discriminate. }
        { unfold s2, floor_updated.
          cbn [norm_amps set_prev_amps set_noise_thresh]. rewrite Hfn. lia. }
        { unfold s2, floor_updated.
          cbn [norm_amps set_prev_amps set_noise_thresh]. now rewrite Hfn. }
        rewrite Hrun. cbn [out_of snd]. apply Forall_app. split.
        { apply lights_duty_ok; assumption. }
        { repeat constructor. }
  - rewrite (callback_no_input _ _ _ _ _ _ _ Hany). cbn [out_of snd].
    apply Forall_app. split; [apply duty_zero_banner_ok|repeat constructor].
Qed.

Lemma callback_sane
    (c : nat) (indata : list Q) (status : option string) (s : State) :
  sane c s -> sane c (state_of (cb indata status s)).
Proof.
  intros [Hrgb Hh]. split.
  - rewrite callback_rgb. apply faded_rgb_ok, Hrgb.
  - apply callback_bright_history, Hh.
Qed.

Lemma stream_duty_ok (c : nat) (inputs : list input) :
  forall (active : bool) (s : State),
    sane c s -> Forall duty_ok (out_of (run_stream active inputs s)).
Proof.
  induction inputs as [|i rest IH]; intros active s Hs; [constructor|].
  destruct i as [indata status|response| |kind msg]; simpl;
    try constructor.
  - destruct active; [|apply IH, Hs].
    pose proof (callback_sane c indata status s Hs) as Hcb.
    pose proof (callback_duty_ok c indata status s Hs) as Hout.
    destruct (cb indata status s) as [[res s1] o1].
    match goal with
    | |- context [stream _ _ _ _ ?a rest s1] =>
        pose proof (IH a s1 Hcb) as Hrest;
        destruct (stream args samplerate hanning rfft_abs a rest s1)
          as [[res2 s2] o2]
    end.
    cbn [out_of snd] in *. apply Forall_app. split; assumption.
  - destruct (quits response); [constructor|].
    apply duty_ok_bind; [apply duty_ok_no_pwm, adjust_gain_out|].
    intros a _. apply IH. destruct Hs as [Hrgb Hh]. split.
    + now rewrite (adjust_gain_keeps rgb response (fun s x => eq_refl) s).
    + now rewrite (adjust_gain_keeps norm_amps response (fun s x => eq_refl) s).
Qed.

(** X4.  With a colour within [0,255] (as in fade mode), every actuator
    call the program ever makes, whatever it is fed, carries a duty cycle in
    [0,255]. *)
Theorem duties_always_in_range (inputs : list input) :
  fade args = true \/ rgb_ok (color args) ->
  Forall duty_ok (main args samplerate hanning rfft_abs inputs).
Proof.
  intro Hcol. unfold main.
  destruct (Qle_bool (high args) (low args)); [repeat constructor|].
  assert (Hboot : rgb_ok (rgb (boot args))).
  { unfold boot. destruct Hcol as [Hf|Hc].
    - rewrite Hf. unfold rgb_ok, channel_ok. cbn. lia.
    - destruct (fade args); [unfold rgb_ok, channel_ok; cbn; lia|].
      destruct (color args) as [[r0 g0] b0]. exact Hc. }
  assert (Hbody : Forall duty_ok
            (out_of (try_body args samplerate hanning rfft_abs inputs
                       (boot args)))).
  { unfold try_body. destruct (list_devices args); [repeat constructor|].
    apply duty_ok_bind.
    { rewrite setup_cases.
      destruct (Qeq_bool (block_duration args) 0); [repeat constructor|].
      destruct (ebind (int_of_quotient (norm_duration / block_duration args))
                  (deque_new [eps])); [repeat constructor|].
      destruct (ebind (int_of_quotient (delay / block_duration args))
                  (fun m => deque_new [] (Z.max 1 m)));
        repeat constructor. }
    intros [] Hres. rewrite (setup_returns _ _ _ Hres).
    apply duty_ok_bind; [repeat constructor|]. intros [] _.
    cbn [state_of fst snd emit].
    apply duty_ok_bind.
    { apply (stream_duty_ok
               (Z.to_nat (Z.max 1 (Py.int (delay / block_duration args))))).
      split; [exact Hboot|].
      cbn [norm_amps set_noise_thresh set_norm_amps].
      repeat split; cbn [items maxlen length]; try lia. constructor. }
    intros [] _. rewrite reset_lights_run. cbn [out_of snd].
    repeat constructor; cbn [duty_ok]; discriminate. }
  unfold try_except.
  destruct (try_body args samplerate hanning rfft_abs inputs (boot args))
    as [[res s1] o1].
  cbn [out_of snd] in Hbody.
  destruct res as [e|u].
  - pose proof (handler_never_resets e s1) as Hh.
    destruct (handler e s1) as [[res2 s2] o2]. cbn [out_of snd] in Hh.
    apply Forall_app. split; [|repeat constructor; apply exit_event_duty_ok].
    apply Forall_app. split; [exact Hbody|apply duty_ok_no_pwm, Hh].
  - apply Forall_app. split; [exact Hbody|repeat constructor].
Qed.

End Duties.

Lemma duties_always_in_range_witness :
  Forall duty_ok
    (main demo_args 8 flat_window abs_spectrum
       [Block [1; 2; 3; 4; 5; 6; 7; 8] None;
        Block [10; 20; 3; 4; 5; 6; 7; 8] None; Line "q"]).
Proof.
  apply (duties_always_in_range demo_args 8 flat_window abs_spectrum).
  right. unfold rgb_ok, channel_ok. simpl. lia.
Defined.

(** ** The colour along the stream and around the wheel *)

Section Colour.

Context (args : Args) (samplerate : Q).
Context (hanning : nat -> list Q) (rfft_abs : list Q -> list Q).

Local Abbreviation cb := (callback args samplerate hanning rfft_abs).
Local Abbreviation run_stream := (stream args samplerate hanning rfft_abs).

Lemma stream_rgb_without_fade (inputs : list input) :
  fade args = false ->
  forall (active : bool) (s : State),
    rgb (state_of (run_stream active inputs s)) = rgb s.
Proof.
  intro Hf. induction inputs as [|i rest IH]; intros active s; [reflexivity|].
  destruct i as [indata status|response| |kind msg]; simpl; try reflexivity.
  - destruct active; [|apply IH].
    pose proof (callback_rgb args samplerate hanning rfft_abs indata status s)
      as Hcb.
    rewrite faded_rgb, Hf in Hcb.
    destruct (cb indata status s) as [[res s1] o1].
    match goal with
    | |- context [stream _ _ _ _ ?a rest s1] =>
        pose proof (IH a s1) as Hrest;
        destruct (stream args samplerate hanning rfft_abs a rest s1)
          as [[res2 s2] o2]
    end.
    cbn [state_of fst snd] in *. congruence.
  - destruct (quits response); [reflexivity|].
    rewrite state_of_bind.
    pose proof (adjust_gain_keeps rgb response (fun s x => eq_refl) s) as Hk.
    destruct (res_of (adjust_gain response s)); [exact Hk|].
    now rewrite IH.
Qed.

(** X6.  A block changes the colour in one way only: in fade mode by one
    [fadeStep(1)], made on every block that is delivered, be it processed,
    silent or failing; without fade mode not at all, so that over any feed
    to the open stream the colour stays what it was. *)
Theorem colour_changes_only_by_fade
    (indata : list Q) (status : option string) (s : State) :
  rgb (state_of (cb indata status s)) =
    (if fade args then fadeStep 1 (rgb s) else rgb s) /\
  (fade args = false ->
   forall inputs active,
     rgb (state_of (run_stream active inputs s)) = rgb s).
Proof.
  split.
  - rewrite callback_rgb. apply faded_rgb.
  - intros Hf inputs active. now apply stream_rgb_without_fade.
Qed.

End Colour.

Lemma fade_iter_add (n m : nat) (c : Z * Z * Z) :
  fade_iter (n + m) c = fade_iter n (fade_iter m c).
Proof. unfold fade_iter. apply Nat.iter_add. Qed.

Lemma fade_iter_full_turns (q : nat) : fade_iter (1530 * q) red = red.
Proof.
  induction q as [|q IH]; [reflexivity|].
  replace (1530 * S q)%nat with (1530 * q + 1530)%nat by lia.
  rewrite fade_iter_add, (fade_iter_wheel 1530) by lia.
  exact IH.
Qed.

(** X7.  The fade is periodic: after any number [n] of advances from
    (255,0,0) the colour is the wheel's colour at position [n mod 1530]. *)
Theorem fade_is_periodic (n : nat) :
  fade_iter n red = wheel (Z.of_nat n mod 1530).
Proof.
  rewrite (Nat.div_mod_eq n 1530) at 1.
  rewrite Nat.add_comm, fade_iter_add, fade_iter_full_turns.
  pose proof (Nat.mod_upper_bound n 1530 ltac:(lia)) as Hm.
  rewrite fade_iter_wheel by lia.
  f_equal. rewrite Nat2Z.inj_mod. reflexivity.
Qed.

(** [fadeStep] moves along the edge the colour lies on, by the step, and
    stops at the ends of the edge. *)
Lemma fadeStep_along_edge (steps k : Z) :
  (0 <= k < 1530)%Z ->
  fadeStep steps (wheel k) =
  wheel (Z.max (edge_start k) (Z.min (k + steps) (edge_end k))).
Proof.
  intro Hk. unfold edge_start, edge_end.
  assert (Hj : (0 <= k / 255 < 6)%Z).
  { split; [apply Z.div_pos; lia|apply Z.div_lt_upper_bound; lia]. }
  pose proof (Z.div_mod k 255 ltac:(lia)) as Hdm.
  pose proof (Z.mod_pos_bound k 255 ltac:(lia)) as Hmod.
  set (j := (k / 255)%Z) in *.
  assert (Hcases : (j = 0 \/ j = 1 \/ j = 2 \/ j = 3 \/ j = 4 \/ j = 5)%Z)
    by lia.
  unfold wheel.
  destruct Hcases as [E|[E|[E|[E|[E|E]]]]]; rewrite E in *;
    repeat case_cmp;
    unfold fadeStep, updateColor; rewrite ?Z.gtb_ltb;
    repeat (case_cmp; cbn [andb]); rewrite ?Z.gtb_ltb;
    repeat (case_cmp; cbn [andb]);
    apply rgb_eq; lia.
Qed.

Ltac wheel_at k :=
  exists k; split; [lia|]; unfold wheel; repeat case_cmp; apply rgb_eq; lia.

Lemma off_wheel_fixed (steps : Z) (c : Z * Z * Z) :
  rgb_ok c -> ~ on_wheel c -> fadeStep steps c = c.
Proof.
  destruct c as [[r0 g0] b0]. intros (Hr & Hg & Hb) Hoff.
  unfold channel_ok in *. unfold fadeStep.
  repeat (case_cmp; cbn [andb]); rewrite ?Z.gtb_ltb;
    repeat (case_cmp; cbn [andb]); try reflexivity; exfalso; apply Hoff;
    solve [ wheel_at g0 | wheel_at (510 - r0)%Z | wheel_at (510 + b0)%Z
          | wheel_at (1020 - g0)%Z | wheel_at (1020 + r0)%Z
          | wheel_at (1530 - b0)%Z ].
Qed.

(** X8.  [fadeStep] with any step, of either sign: a colour at position [k]
    of the wheel moves by the step along the edge it lies on and stops at
    the edge's ends, so it stays on the wheel; a colour within [0,255] that
    is not on the wheel is left as it is. *)
Theorem fadeStep_stays_on_wheel (steps : Z) :
  (forall k, (0 <= k < 1530)%Z ->
     fadeStep steps (wheel k) =
     wheel (Z.max (edge_start k) (Z.min (k + steps) (edge_end k)))) /\
  (forall c, on_wheel c -> on_wheel (fadeStep steps c)) /\
  (forall c, rgb_ok c -> ~ on_wheel c -> fadeStep steps c = c).
Proof.
  split; [intros k Hk; now apply fadeStep_along_edge|].
  split; [|intros c; apply off_wheel_fixed].
  intros c (k & Hk & ->). rewrite fadeStep_along_edge by exact Hk.
  unfold edge_start, edge_end.
  assert (Hj : (0 <= k / 255 < 6)%Z).
  { split; [apply Z.div_pos; lia|apply Z.div_lt_upper_bound; lia]. }
  pose proof (Z.div_mod k 255 ltac:(lia)) as Hdm.
  pose proof (Z.mod_pos_bound k 255 ltac:(lia)) as Hmod.
  set (k' := Z.max (255 * (k / 255)) (Z.min (k + steps) (255 * (k / 255 + 1)))).
  assert (Hk' : (0 <= k' <= 1530)%Z) by (unfold k'; lia).
  destruct (Z.eq_dec k' 1530) as [E|E].
  - exists 0%Z. split; [lia|]. rewrite E. reflexivity.
  - exists k'. split; [lia|reflexivity].
Qed.

Lemma colour_changes_only_by_fade_witness :
  rgb (state_of
         (stream demo_args 8 flat_window abs_spectrum true
            [Block [1; 2; 3; 4; 5; 6; 7; 8] None; Line "x"; Block [0] None]
            idle_state))
  = rgb idle_state.
Proof.
  refine (proj2 (colour_changes_only_by_fade demo_args 8 flat_window
                   abs_spectrum [] None idle_state) _ _ true).
  reflexivity.
Defined.

Lemma fadeStep_stays_on_wheel_witness :
  fadeStep 10 (wheel 250) = wheel 255 /\ fadeStep (-10) (wheel 258) = wheel 255.
Proof.
  split.
  - apply (proj1 (fadeStep_stays_on_wheel 10) 250%Z). lia.
  - apply (proj1 (fadeStep_stays_on_wheel (-10)) 258%Z). lia.
Defined.

(** ** The interactive gain control *)

Lemma number_halve_error (x : number) (e : exn) :
  number_halve x = inl e -> e = division_overflow.
Proof.
  destruct x as [n|q]; [|discriminate]. unfold number_halve.
  destruct (Qle_bool FLOAT_LIMIT (Qabs (inject_Z n / 2))); congruence.
Qed.

(** A line returns, having printed the banner if a foreign character
    stopped it, or raises OverflowError, having printed nothing. *)
Lemma adjust_gain_outcome (response : string) :
  forall s,
    res_of (adjust_gain response s) = inr tt /\
    out_of (adjust_gain response s) =
      (if plus_minus response then [] else [print_banner usage_line]) \/
    res_of (adjust_gain response s) = inl division_overflow /\
    out_of (adjust_gain response s) = [].
Proof.
  induction response as [|ch rest IH]; intro s; [left; split; reflexivity|].
  cbn [adjust_gain plus_minus].
  destruct (Ascii.eqb ch "+") eqn:Eplus; cbn [orb andb].
  - rewrite bind_modify. apply IH.
  - destruct (Ascii.eqb ch "-") eqn:Eminus; cbn [orb andb].
    + rewrite bind_get.
      destruct (number_halve (args_gain s)) as [e|x] eqn:Eh.
      * rewrite bind_lift_inl. right.
        rewrite (number_halve_error _ _ Eh). split; reflexivity.
      * rewrite bind_lift_inr, bind_modify. apply IH.
    + left. split; reflexivity.
Qed.

(** A float gain stays a float, and no line raises on it. *)
Lemma adjust_gain_float (response : string) :
  forall s x,
    args_gain s = PyFloat x ->
    res_of (adjust_gain response s) = inr tt /\
    exists y, args_gain (state_of (adjust_gain response s)) = PyFloat y.
Proof.
  induction response as [|ch rest IH]; intros s x Hx.
  - split; [reflexivity|]. exists x. exact Hx.
  - cbn [adjust_gain].
    destruct (Ascii.eqb ch "+"); [|destruct (Ascii.eqb ch "-")].
    + rewrite bind_modify. apply (IH _ (x * 2)).
      cbn [args_gain set_gain]. now rewrite Hx.
    + rewrite bind_get, Hx. cbn [number_halve].
      rewrite bind_lift_inr, bind_modify. now apply (IH _ (x / 2)).
    + split; [reflexivity|]. exists x. exact Hx.
Qed.

Lemma iter_double_int (k : nat) (n : Z) :
  Nat.iter k number_double (PyInt n) = PyInt (n * 2 ^ Z.of_nat k).
Proof.
  induction k as [|k IH].
  - change (PyInt n = PyInt (n * 1)). now rewrite Z.mul_1_r.
  - rewrite Nat.iter_succ, IH. cbn [number_double].
    rewrite Nat2Z.inj_succ, Z.pow_succ_r by lia. f_equal. ring.
Qed.

(** The leading [+] of a line double the gain, one by one. *)
Lemma adjust_gain_pluses (k : nat) (rest : string) :
  forall s,
    adjust_gain (Py.str_repeat k "+" ++ rest) s =
    adjust_gain rest (set_gain s (Nat.iter k number_double (args_gain s))).
Proof.
  induction k as [|k IH]; intro s.
  - change (Nat.iter 0 number_double (args_gain s)) with (args_gain s).
    cbn [Py.str_repeat append]. now rewrite set_gain_same.
  - change (Py.str_repeat (S k) "+" ++ rest)%string
      with (String "+" (Py.str_repeat k "+" ++ rest)).
    change (adjust_gain (String "+" (Py.str_repeat k "+" ++ rest)) s)
      with (bind (modify (fun s => set_gain s (number_double (args_gain s))))
              (fun _ => adjust_gain (Py.str_repeat k "+" ++ rest)) s).
    rewrite bind_modify, IH, set_gain_twice. cbn [args_gain set_gain].
    now rewrite Nat.iter_succ_r.
Qed.

(** X9.  A line that does not quit changes nothing but the gain.  It
    either returns, having printed the usage banner once if a character
    that is neither [+] nor [-] stopped it and nothing otherwise, or raises
    OverflowError, having printed nothing.  A float gain (one given with
    [--gain], or halved once) stays a float and never raises.  An int gain
    (the default) is doubled exactly by each leading [+], without bound; it
    never raises when it has room for the [+] of the line; and a [-] after
    [k] leading [+] raises, leaving the doubled int, when the magnitude of
    the doubled int is at least [2 * (2^1024 - 2^970)], its half being no
    double. *)
Theorem gain_line_scales (response : string) (s : State) :
  same_but_gain (state_of (adjust_gain response s)) s /\
  (res_of (adjust_gain response s) = inr tt /\
   out_of (adjust_gain response s) =
     (if plus_minus response then [] else [print_banner usage_line]) \/
   res_of (adjust_gain response s) = inl division_overflow /\
   out_of (adjust_gain response s) = []) /\
  (forall x,
     args_gain s = PyFloat x ->
     res_of (adjust_gain response s) = inr tt /\
     exists y, args_gain (state_of (adjust_gain response s)) = PyFloat y) /\
  (forall n,
     args_gain s = PyInt n -> gain_room (count_plus response) (PyInt n) ->
     res_of (adjust_gain response s) = inr tt) /\
  (forall n k rest,
     args_gain s = PyInt n ->
     response = (Py.str_repeat k "+" ++ rest)%string ->
     gain_prefix rest = EmptyString ->
     res_of (adjust_gain response s) = inr tt /\
     args_gain (state_of (adjust_gain response s))
       = PyInt (n * 2 ^ Z.of_nat k)) /\
  (forall n k rest,
     args_gain s = PyInt n ->
     response = (Py.str_repeat k "+" ++ String "-" rest)%string ->
     (2 * (2 ^ 1024 - 2 ^ 970) <= Z.abs n * 2 ^ Z.of_nat k)%Z ->
     adjust_gain response s =
       (inl division_overflow, set_gain s (PyInt (n * 2 ^ Z.of_nat k)), [])).
Proof.
  split.
  { repeat split.
    - apply (adjust_gain_keeps rgb). reflexivity.
    - apply (adjust_gain_keeps prev_amps). reflexivity.
    - apply (adjust_gain_keeps norm_amps). reflexivity.
    - apply (adjust_gain_keeps noise_thresh). reflexivity. }
  split; [apply adjust_gain_outcome|].
  split; [intros x Hx; now apply (adjust_gain_float response s x)|].
  split.
  { intros n Hn Hroom. rewrite <- Hn in Hroom.
    destruct (adjust_gain_room response s _ Hroom (le_n _)) as (x & -> & _).
    reflexivity. }
  split.
  - intros n k rest Hn -> Hrest.
    rewrite adjust_gain_pluses, Hn, iter_double_int.
    destruct rest as [|ch rest]; [split; reflexivity|].
    cbn [gain_prefix] in Hrest. cbn [adjust_gain].
    destruct (Ascii.eqb ch "+"); [discriminate|].
    destruct (Ascii.eqb ch "-"); [discriminate|].
    split; reflexivity.
  - intros n k rest Hn -> Hbig.
    rewrite adjust_gain_pluses, Hn, iter_double_int.
    change (adjust_gain (String "-" rest))
      with (bind (get args_gain) (fun x =>
              bind (lift (number_halve x)) (fun x =>
              bind (modify (fun s => set_gain s x)) (fun _ =>
              adjust_gain rest)))).
    rewrite bind_get. cbn [args_gain set_gain].
    rewrite (proj2 (number_halve_int (n * 2 ^ Z.of_nat k))).
    + reflexivity.
    + rewrite Z.abs_mul, (Z.abs_eq (2 ^ Z.of_nat k)); [exact Hbig|].
      apply Z.pow_nonneg. lia.
Qed.

(** ** Starting up *)

Lemma int_opp (x : Q) : Py.int (- x) = (- Py.int x)%Z.
Proof.
  destruct x as [a d]. unfold Py.int, Qopp. cbn [Qnum Qden].
  apply Z.quot_opp_l. lia.
Qed.

(** [int] of a number that is at least the integer [c >= 0]. *)
Lemma int_at_least (x : Q) (c : Z) :
  (0 <= c)%Z -> inject_Z c <= x -> (c <= Py.int x)%Z.
Proof.
  intros Hc Hx.
  assert (H0 : 0 <= x).
  { eapply Qle_trans; [|exact Hx]. change 0 with (inject_Z 0).
    now rewrite <- Zle_Qle. }
  destruct (int_bounds x H0) as (_ & _ & Hlow).
  assert (H : inject_Z c < inject_Z (Py.int x + 1)).
  { rewrite inject_Z_plus. change (inject_Z 1) with 1.
    revert Hx Hlow. generalize (inject_Z c) (inject_Z (Py.int x)).
    intros u v Hx Hlow. lra. }
  rewrite <- Zlt_Qlt in H. lia.
Qed.

(** [int] of a number that is at most the integer [c >= 0]. *)
Lemma int_at_most (x : Q) (c : Z) :
  0 <= x -> x <= inject_Z c -> (0 <= Py.int x <= c)%Z.
Proof.
  intros H0 Hx. destruct (int_bounds x H0) as (Hnn & Hup & _).
  split; [exact Hnn|]. rewrite Zle_Qle.
  eapply Qle_trans; [exact Hup|exact Hx].
Qed.

(** The window over a block duration that is not 0. *)
Lemma window_quotient (bd : Q) :
  ~ bd == 0 -> bd * (norm_duration / bd) == norm_duration.
Proof. intro Hnz. now apply Qmult_div_r. Qed.

Lemma delay_quotient (bd : Q) : ~ bd == 0 -> bd * (delay / bd) == delay.
Proof. intro Hnz. now apply Qmult_div_r. Qed.

Section Startup.

Context (args : Args) (samplerate : Q).
Context (hanning : nat -> list Q) (rfft_abs : list Q -> list Q).

Lemma setup_zero (s : State) :
  block_duration args == 0 ->
  setup args samplerate s =
    (inl ZeroDivisionError, s, [print_sampling samplerate]).
Proof.
  intro H0. rewrite setup_cases. apply Qeq_bool_iff in H0. now rewrite H0.
Qed.

Lemma setup_negative (s : State) :
  - norm_duration <= block_duration args ->
  block_duration args <= - (1 # 100000) ->
  setup args samplerate s =
    (inl maxlen_negative, s, [print_sampling samplerate]).
Proof.
  intros Hlow Hhigh. rewrite setup_cases.
  assert (Hnz : ~ block_duration args == 0).
  { intro E. lra. }
  destruct (Qeq_bool (block_duration args) 0) eqn:E.
  { apply Qeq_bool_iff in E. contradiction. }
  pose proof (window_quotient _ Hnz) as Hy.
  set (y := norm_duration / block_duration args) in *.
  unfold norm_duration in *.
  assert (Hy1 : 1 <= - y).
  { destruct (Qlt_le_dec (- y) 1) as [Hlt|Hle]; [exfalso|exact Hle].
    destruct (Qlt_le_dec y 0); nra. }
  assert (Hy2 : - y <= 1000000000).
  { destruct (Qlt_le_dec 1000000000 (- y)) as [Hlt|Hle]; [exfalso|exact Hle].
    nra. }
  pose proof (int_at_least_one _ Hy1) as Hint1.
  assert (Hint2 : (0 <= Py.int (- y) <= 1000000000)%Z)
    by (apply int_at_most; [lra|exact Hy2]).
  rewrite int_opp in Hint1, Hint2.
  assert (Hbig : 1000000000 <= inject_Z (2 ^ 64)) by discriminate.
  rewrite int_of_quotient_moderate.
  - cbn [ebind]. rewrite deque_new_negative by (unfold SSIZE_MAX; lia).
    reflexivity.
  - apply Qopp_le_compat in Hy2. rewrite Qopp_involutive in Hy2.
    eapply Qle_trans; [|exact Hy2]. apply Qopp_le_compat. exact Hbig.
  - eapply Qle_trans; [|exact Hbig]. lra.
Qed.

Lemma setup_overflow (s : State) :
  ~ block_duration args == 0 ->
  Qabs (block_duration args) * inject_Z (2 ^ 64) <= norm_duration ->
  exists msg,
    setup args samplerate s =
      (inl (Exception "OverflowError" msg), s, [print_sampling samplerate]).
Proof.
  intros Hnz Hsmall. rewrite setup_cases.
  destruct (Qeq_bool (block_duration args) 0) eqn:E.
  { apply Qeq_bool_iff in E. contradiction. }
  pose proof (window_quotient _ Hnz) as Hy.
  set (y := norm_duration / block_duration args) in *.
  unfold int_of_quotient.
  destruct (Qle_bool FLOAT_LIMIT (Qabs y)); [eexists; reflexivity|].
  cbn [ebind]. exists "Python int too large to convert to C ssize_t"%string.
  unfold norm_duration in *.
  change (inject_Z (2 ^ 64)) with 18446744073709551616 in Hsmall.
  destruct (Qlt_le_dec (block_duration args) 0) as [Hneg|Hpos].
  - rewrite Qabs_neg in Hsmall by lra.
    assert (Hbig : inject_Z (2 ^ 64) <= - y).
    { change (inject_Z (2 ^ 64)) with 18446744073709551616.
      destruct (Qlt_le_dec (- y) 18446744073709551616) as [Hlt|Hle];
        [exfalso|exact Hle].
      destruct (Qlt_le_dec y 0); nra. }
    apply int_at_least in Hbig; [|lia]. rewrite int_opp in Hbig.
    rewrite deque_new_overflow; [reflexivity|].
    left. unfold SSIZE_MAX. lia.
  - assert (Hpos' : 0 < block_duration args).
    { destruct (Qlt_le_dec 0 (block_duration args)) as [H|H]; [exact H|].
      exfalso. apply Hnz. lra. }
    rewrite Qabs_pos in Hsmall by lra.
    assert (Hbig : inject_Z (2 ^ 64) <= y).
    { change (inject_Z (2 ^ 64)) with 18446744073709551616.
      destruct (Qlt_le_dec y 18446744073709551616) as [Hlt|Hle];
        [exfalso|exact Hle].
      destruct (Qlt_le_dec y 0); nra. }
    apply int_at_least in Hbig; [|lia].
    rewrite deque_new_overflow; [reflexivity|].
    right. unfold SSIZE_MAX. lia.
Qed.

Lemma setup_succeeds (s : State) :
  (1 # 100000) <= block_duration args ->
  res_of (setup args samplerate s) = inr tt.
Proof.
  intro Hlow. rewrite setup_cases.
  assert (Hnz : ~ block_duration args == 0).
  { intro E. lra. }
  destruct (Qeq_bool (block_duration args) 0) eqn:E.
  { apply Qeq_bool_iff in E. contradiction. }
  pose proof (window_quotient _ Hnz) as Hy.
  pose proof (delay_quotient _ Hnz) as Hz.
  set (y := norm_duration / block_duration args) in *.
  set (z := delay / block_duration args) in *.
  unfold norm_duration, delay in *.
  assert (Hy0 : 0 <= y).
  { destruct (Qlt_le_dec y 0) as [Hlt|Hle]; [exfalso; nra|exact Hle]. }
  assert (Hy1 : y <= inject_Z 1000000000).
  { change (inject_Z 1000000000) with 1000000000.
    destruct (Qlt_le_dec 1000000000 y) as [Hlt|Hle]; [exfalso; nra|exact Hle]. }
  assert (Hz0 : 0 <= z).
  { destruct (Qlt_le_dec z 0) as [Hlt|Hle]; [exfalso; nra|exact Hle]. }
  assert (Hz1 : z <= inject_Z 30000000).
  { change (inject_Z 30000000) with 30000000.
    destruct (Qlt_le_dec 30000000 z) as [Hlt|Hle]; [exfalso; nra|exact Hle]. }
  pose proof (int_at_most _ _ Hy0 Hy1) as Hi1.
  pose proof (int_at_most _ _ Hz0 Hz1) as Hi2.
  assert (Hbig : inject_Z 30000000 <= inject_Z (2 ^ 64)) by discriminate.
  assert (Hbig' : inject_Z 1000000000 <= inject_Z (2 ^ 64)) by discriminate.
  assert (Hneg : - inject_Z (2 ^ 64) <= 0) by discriminate.
  rewrite !int_of_quotient_moderate by (eapply Qle_trans; eassumption).
  cbn [ebind]. rewrite !deque_new_fits by (unfold SSIZE_MAX; lia).
  reflexivity.
Qed.

(** When [setup] raises an Exception the program is the sampling line and
    the exit through the handler on line 216. *)
Lemma main_when_setup_raises (inputs : list input) (kind msg : string) :
  Qle_bool (high args) (low args) = false -> list_devices args = false ->
  setup args samplerate (boot args) =
    (inl (Exception kind msg), boot args, [print_sampling samplerate]) ->
  main args samplerate hanning rfft_abs inputs =
    [print_sampling samplerate; exit_ (kind ++ ": " ++ msg)].
Proof.
  intros Hrange Hlist Hsetup.
  unfold main, try_except, try_body. rewrite Hrange, Hlist.
  unfold bind at 1. rewrite Hsetup. reflexivity.
Qed.

(** X10.  How the startup code ends, by block duration, each failure coming
    before anything but the sampling rate is printed and before any global
    is bound.  A block duration of 0 raises ZeroDivisionError.  From -10000
    to -0.00001 it raises ValueError, the capacity of the first deque being
    negative.  With a magnitude of at most 10000 / 2^64 (and not 0) it
    raises OverflowError, the capacity being too large for the deque or the
    quotient itself an infinity.  From 0.00001 upwards it returns.  When it raises, and the range is valid,
    the whole program is the sampling line and the exit with the exception,
    whatever it is fed: the stream is never opened and no light is set. *)
Theorem setup_outcomes (s : State) (inputs : list input) :
  (block_duration args == 0 ->
   setup args samplerate s =
     (inl ZeroDivisionError, s, [print_sampling samplerate])) /\
  (- norm_duration <= block_duration args /\
   block_duration args <= - (1 # 100000) ->
   setup args samplerate s =
     (inl (Exception "ValueError" "maxlen must be non-negative"), s,
      [print_sampling samplerate])) /\
  (~ block_duration args == 0 /\
   Qabs (block_duration args) * inject_Z (2 ^ 64) <= norm_duration ->
   exists msg,
     setup args samplerate s =
       (inl (Exception "OverflowError" msg), s, [print_sampling samplerate])) /\
  ((1 # 100000) <= block_duration args ->
   res_of (setup args samplerate s) = inr tt) /\
  (Qle_bool (high args) (low args) = false -> list_devices args = false ->
   (block_duration args == 0 ->
    main args samplerate hanning rfft_abs inputs =
      [print_sampling samplerate;
       exit_ "ZeroDivisionError: float division by zero"]) /\
   (- norm_duration <= block_duration args /\
    block_duration args <= - (1 # 100000) ->
    main args samplerate hanning rfft_abs inputs =
      [print_sampling samplerate;
       exit_ "ValueError: maxlen must be non-negative"]) /\
   (~ block_duration args == 0 /\
    Qabs (block_duration args) * inject_Z (2 ^ 64) <= norm_duration ->
    exists msg,
      main args samplerate hanning rfft_abs inputs =
        [print_sampling samplerate; exit_ ("OverflowError: " ++ msg)])).
Proof.
  split; [apply setup_zero|].
  split; [intros [H1 H2]; now apply setup_negative|].
  split; [intros [H1 H2]; now apply setup_overflow|].
  split; [apply setup_succeeds|].
  intros Hrange Hlist.
  split; [|split].
  - intro H.
    apply (main_when_setup_raises inputs _ _ Hrange Hlist (setup_zero _ H)).
  - intros [H1 H2].
    apply (main_when_setup_raises inputs _ _ Hrange Hlist
             (setup_negative _ H1 H2)).
  - intros [H1 H2]. destruct (setup_overflow (boot args) H1 H2) as [msg Hm].
    exists msg. apply (main_when_setup_raises inputs _ _ Hrange Hlist Hm).
Qed.

End Startup.

Lemma setup_outcomes_witness :
  setup (mkArgs false (-5) (255, 0, 0)%Z (PyInt 10) (0, 200) false) 44100
    idle_state
  = (inl (Exception "ValueError" "maxlen must be non-negative"), idle_state,
     [print_sampling 44100]) /\
  main (mkArgs false 0 (255, 0, 0)%Z (PyInt 10) (0, 200) false) 44100
    flat_window abs_spectrum [Block [1; 2] None; Line "q"]
  = [print_sampling 44100; exit_ "ZeroDivisionError: float division by zero"] /\
  (exists msg,
     main (mkArgs false (1 # 10000000000000000) (255, 0, 0)%Z (PyInt 10)
             (0, 200) false) 44100
       flat_window abs_spectrum [Block [1; 2] None; Line "q"]
     = [print_sampling 44100; exit_ ("OverflowError: " ++ msg)]) /\
  res_of (setup default_args 44100 idle_state) = inr tt.
Proof.
  split; [|split; [|split]].
  - apply (proj1 (proj2 (setup_outcomes
                           (mkArgs false (-5) (255, 0, 0)%Z (PyInt 10)
                              (0, 200) false)
                           44100 flat_window abs_spectrum idle_state []))).
    split; discriminate.
  - apply (proj1 (proj2 (proj2 (proj2 (proj2 (setup_outcomes
                           (mkArgs false 0 (255, 0, 0)%Z (PyInt 10)
                              (0, 200) false)
                           44100 flat_window abs_spectrum idle_state
                           [Block [1; 2] None; Line "q"]))))
                  eq_refl eq_refl)).
    reflexivity.
  - apply (proj2 (proj2 (proj2 (proj2 (proj2 (setup_outcomes
                           (mkArgs false (1 # 10000000000000000)
                              (255, 0, 0)%Z (PyInt 10) (0, 200) false)
                           44100 flat_window abs_spectrum idle_state
                           [Block [1; 2] None; Line "q"]))))
                  eq_refl eq_refl)).
    split; [discriminate|]. vm_compute. discriminate.
  - apply (proj1 (proj2 (proj2 (proj2 (setup_outcomes default_args 44100
                           flat_window abs_spectrum idle_state []))))).
    discriminate.
Defined.

(** ** The shape of the normalisation and of the curve *)

Lemma py_min_mono (h x y : Q) : x <= y -> Py.min h x <= Py.min h y.
Proof.
  intro Hxy. unfold Py.min.
  destruct (Py.Qltb x h) eqn:Ex, (Py.Qltb y h) eqn:Ey;
    try apply Qltb_lt in Ex; try apply Qltb_ge in Ex;
    try apply Qltb_lt in Ey; try apply Qltb_ge in Ey; lra.
Qed.

Lemma py_max_mono (l x y : Q) : x <= y -> Py.max l x <= Py.max l y.
Proof.
  intro Hxy. unfold Py.max.
  destruct (Py.Qltb l x) eqn:Ex, (Py.Qltb l y) eqn:Ey;
    try apply Qltb_lt in Ex; try apply Qltb_ge in Ex;
    try apply Qltb_lt in Ey; try apply Qltb_ge in Ey; lra.
Qed.

Lemma bounded_mono (x y l h : Q) :
  x <= y -> bounded x l h <= bounded y l h.
Proof. intro H. unfold bounded. apply py_max_mono, py_min_mono, H. Qed.

Lemma bounded_low (x l h : Q) : l <= h -> x <= l -> bounded x l h == l.
Proof.
  intros Hlh Hx. rewrite bounded_is_clamp by exact Hlh. unfold clamp.
  destruct (Qlt_le_dec x l); [reflexivity|].
  destruct (Qlt_le_dec h x); lra.
Qed.

Lemma bounded_high (x l h : Q) : l <= h -> h <= x -> bounded x l h == h.
Proof.
  intros Hlh Hx. rewrite bounded_is_clamp by exact Hlh. unfold clamp.
  destruct (Qlt_le_dec x l); [lra|].
  destruct (Qlt_le_dec h x); lra.
Qed.

Lemma bounded_inside (x l h : Q) : l <= x <= h -> bounded x l h == x.
Proof.
  intros [H1 H2]. rewrite bounded_is_clamp by lra. unfold clamp.
  destruct (Qlt_le_dec x l); [lra|].
  destruct (Qlt_le_dec h x); lra.
Qed.

Lemma sixth_power (z : Q) : z ^ 6 == (z * z) * (z * z) * (z * z).
Proof. simpl. ring. Qed.

Lemma sixth_power_mono (x y : Q) : 0 <= x <= y -> x ^ 6 <= y ^ 6.
Proof.
  intros [H0 H1]. rewrite !sixth_power.
  assert (H2 : 0 <= x * x <= y * y).
  { split; [apply Qmult_le_0_compat; assumption|].
    apply Qmult_le_compat_nonneg; split; assumption. }
  assert (H4 : 0 <= x * x * (x * x) <= y * y * (y * y)).
  { split; [apply Qmult_le_0_compat; apply H2|].
    apply Qmult_le_compat_nonneg; exact H2. }
  apply Qmult_le_compat_nonneg; assumption.
Qed.

Lemma sixth_power_below_one (x : Q) : 0 <= x -> x < 1 -> x ^ 6 < 1.
Proof.
  intros H0 H1. rewrite sixth_power.
  assert (H2 : 0 <= x * x < 1).
  { split; [apply Qmult_le_0_compat; assumption|].
    change 1 with (1 * 1). apply Qmult_lt_compat_nonneg; split; assumption. }
  assert (H4 : 0 <= x * x * (x * x) < 1).
  { split; [apply Qmult_le_0_compat; apply H2|].
    change 1 with (1 * 1). apply Qmult_lt_compat_nonneg; exact H2. }
  change 1 with (1 * 1). apply Qmult_lt_compat_nonneg; assumption.
Qed.

Lemma curve_of_floor (n : Q) : 0 <= n -> (1 # 1000000) <= curve_of n.
Proof.
  intro Hn. unfold curve_of.
  assert (H : (1 # 10) ^ 6 <= (n + (1 # 10)) ^ 6).
  { apply sixth_power_mono. split; [discriminate|lra]. }
  change ((1 # 10) ^ 6) with (1 # 1000000) in H.
  eapply Qle_trans; [|apply (bounded_mono _ _ 0 1 H)].
  rewrite bounded_inside; [apply Qle_refl|split; discriminate].
Qed.

Lemma curve_of_mono (n1 n2 : Q) :
  0 <= n1 -> n1 <= n2 -> curve_of n1 <= curve_of n2.
Proof.
  intros H0 H12. apply bounded_mono, sixth_power_mono. split; lra.
Qed.

Lemma curve_of_saturates (n : Q) :
  0 <= n -> (curve_of n == 1 <-> (9 # 10) <= n).
Proof.
  intro H0. unfold curve_of. split.
  - intro E. destruct (Qlt_le_dec n (9 # 10)) as [Hlt|Hge]; [|exact Hge].
    exfalso.
    assert (H6 : (n + (1 # 10)) ^ 6 < 1)
      by (apply sixth_power_below_one; lra).
    assert (H6' : 0 <= (n + (1 # 10)) ^ 6).
    { apply Qpower_0_le. lra. }
    rewrite bounded_inside in E by (split; lra). lra.
  - intro Hge. apply bounded_high; [discriminate|].
    change 1 with (1 ^ 6) at 1. apply sixth_power_mono. split; [discriminate|lra].
Qed.

Lemma percentile_range_error (a : list Q) (q : Q) :
  q < 0 \/ 100 < q -> np.percentile a q = inl ValueError.
Proof.
  intro H. unfold np.percentile.
  destruct (Qle_bool 0 q) eqn:E0; [|reflexivity].
  destruct (Qle_bool q 100) eqn:E1; [|reflexivity].
  apply Qle_bool_iff in E0. apply Qle_bool_iff in E1.
  destruct H; lra.
Qed.

Lemma eps_positive : 0 < eps.
Proof. reflexivity. Qed.

Lemma ratio_mono (x y d : Q) : 0 < d -> x <= y -> x / d <= y / d.
Proof.
  intros Hd Hxy. unfold Qdiv. apply Qmult_le_compat_r; [exact Hxy|].
  apply Qlt_le_weak, Qinv_lt_0_compat, Hd.
Qed.

Lemma normalize_bad_margin (val : Q) (history : list Q) (margin : Q) :
  history <> [] -> margin < 0 \/ 50 < margin ->
  normalize val history margin = inl ValueError.
Proof.
  intros Hne [Hneg|Hbig]; unfold normalize.
  - rewrite percentile_range_error by (right; lra). reflexivity.
  - destruct (Qlt_le_dec 100 margin) as [H100|H100].
    + rewrite percentile_range_error by (left; lra). reflexivity.
    + destruct (percentile_defined history (100 - margin) Hne) as [vmax ->];
        [split; lra|].
      cbn [ebind]. rewrite percentile_range_error by (right; lra).
      reflexivity.
Qed.

Lemma normalize_in_margin (val val' : Q) (history : list Q) (margin : Q) :
  history <> [] -> 0 <= margin <= 50 ->
  exists val_max val_min n n',
    np.percentile history (100 - margin) = inr val_max /\
    np.percentile history (margin * 2) = inr val_min /\
    normalize val history margin = inr n /\
    normalize val' history margin = inr n' /\
    in01 n /\
    (val <= val' -> n <= n') /\
    (val <= val_min -> n == 0) /\
    (val_max <= val -> eps <= val_max - val_min -> n == 1).
Proof.
  intros Hne [Hm0 Hm50].
  destruct (percentile_defined history (100 - margin) Hne) as [vmax Hmax];
    [split; lra|].
  destruct (percentile_defined history (margin * 2) Hne) as [vmin Hmin];
    [split; lra|].
  pose proof eps_positive as Heps.
  pose proof (py_max_lb_l eps (vmax - vmin)) as Hd.
  pose proof (py_max_lb_r eps (vmax - vmin)) as Hd'.
  set (d := Py.max eps (vmax - vmin)) in *.
  assert (Hdpos : 0 < d) by lra.
  exists vmax, vmin, (bounded ((val - vmin) / d) 0 1),
    (bounded ((val' - vmin) / d) 0 1).
  split; [exact Hmax|]. split; [exact Hmin|].
  split; [unfold normalize; now rewrite Hmax, Hmin|].
  split; [unfold normalize; now rewrite Hmax, Hmin|].
  split; [apply bounded_range; discriminate|].
  split; [intro Hv; apply bounded_mono, ratio_mono; [exact Hdpos|lra]|].
  split.
  - intro Hv. apply bounded_low; [discriminate|].
    apply Qle_shift_div_r; [exact Hdpos|]. lra.
  - intros Hv Hspread. apply bounded_high; [discriminate|].
    apply Qle_shift_div_l; [exact Hdpos|].
    assert (Hdeq : d == vmax - vmin).
    { unfold d. rewrite py_max_Qmax. apply Q.max_r. exact Hspread. }
    rewrite Hdeq. lra.
Qed.

(** X11.  [normalize] with any margin, on a history that is not empty.  A
    margin below 0 or above 50 raises ValueError (a percentile rank outside
    [0,100]).  Otherwise both percentiles exist and the result lies in
    [0,1], does not decrease when the value grows, is 0 for a value at or
    below the lower percentile, and is 1 for a value at or above the upper
    percentile when the two percentiles are at least 1e-9 apart. *)
Theorem normalize_shape (val val' : Q) (history : list Q) (margin : Q) :
  history <> [] ->
  (margin < 0 \/ 50 < margin ->
   normalize val history margin = inl ValueError) /\
  (0 <= margin <= 50 ->
   exists val_max val_min n n',
     np.percentile history (100 - margin) = inr val_max /\
     np.percentile history (margin * 2) = inr val_min /\
     normalize val history margin = inr n /\
     normalize val' history margin = inr n' /\
     in01 n /\
     (val <= val' -> n <= n') /\
     (val <= val_min -> n == 0) /\
     (val_max <= val -> eps <= val_max - val_min -> n == 1)).
Proof.
  intro Hne. split.
  - now apply normalize_bad_margin.
  - now apply normalize_in_margin.
Qed.

Lemma normalize_shape_witness :
  normalize 3 [1; 2; 3; 4; 5] 60 = inl ValueError /\
  exists val_max val_min n n',
    np.percentile [1; 2; 3; 4; 5] (100 - 0) = inr val_max /\
    np.percentile [1; 2; 3; 4; 5] (0 * 2) = inr val_min /\
    normalize 3 [1; 2; 3; 4; 5] 0 = inr n /\
    normalize 9 [1; 2; 3; 4; 5] 0 = inr n' /\
    in01 n /\
    (3 <= 9 -> n <= n') /\
    (3 <= val_min -> n == 0) /\
    (val_max <= 3 -> eps <= val_max - val_min -> n == 1).
Proof.
  split.
  - apply (proj1 (normalize_shape 3 9 [1; 2; 3; 4; 5] 60 ltac:(discriminate))).
    right. reflexivity.
  - apply (proj2 (normalize_shape 3 9 [1; 2; 3; 4; 5] 0 ltac:(discriminate))).
    split; discriminate.
Defined.


(** X12.  [curved_norm] on a history that is not empty (margin 10, as the
    pipeline calls it): the brightness sample is defined, is the curve of
    the normalised value, never falls below 1e-6 (so it is never 0), is 1
    exactly when the normalised value is at least 0.9, and does not
    decrease when the value grows. *)
Theorem curved_norm_shape (val val' : Q) (history : list Q) :
  history <> [] ->
  exists n n' c c',
    normalize val history 10 = inr n /\
    normalize val' history 10 = inr n' /\
    curved_norm val history 10 = inr c /\
    curved_norm val' history 10 = inr c' /\
    c = curve_of n /\
    (1 # 1000000) <= c <= 1 /\
    (c == 1 <-> (9 # 10) <= n) /\
    (val <= val' -> c <= c').
Proof.
  intro Hne.
  destruct (normalize_in_margin val val' history 10 Hne)
    as (vmax & vmin & n & n' & _ & _ & Hn & Hn' & [Hn0 Hn1] & Hmono & _).
  { split; discriminate. }
  exists n, n', (curve_of n), (curve_of n').
  split; [exact Hn|]. split; [exact Hn'|].
  split; [unfold curved_norm; now rewrite Hn|].
  split; [unfold curved_norm; now rewrite Hn'|].
  split; [reflexivity|].
  split; [split; [apply curve_of_floor, Hn0|apply bounded_range; discriminate]|].
  split; [apply curve_of_saturates, Hn0|].
  intro Hv. apply curve_of_mono; [exact Hn0|apply Hmono, Hv].
Qed.

Lemma curved_norm_shape_witness :
  exists n n' c c',
    normalize 3 [1; 2; 3; 4; 5] 10 = inr n /\
    normalize 9 [1; 2; 3; 4; 5] 10 = inr n' /\
    curved_norm 3 [1; 2; 3; 4; 5] 10 = inr c /\
    curved_norm 9 [1; 2; 3; 4; 5] 10 = inr c' /\
    c = curve_of n /\
    (1 # 1000000) <= c <= 1 /\
    (c == 1 <-> (9 # 10) <= n) /\
    (3 <= 9 -> c <= c').
Proof.
  apply (curved_norm_shape 3 9 [1; 2; 3; 4; 5]). discriminate.
Defined.

(** ** Dark exactly on silence *)







Section Silence.

Context (args : Args) (samplerate : Q).
Context (hanning : nat -> list Q) (rfft_abs : list Q -> list Q).

Local Abbreviation cb := (callback args samplerate hanning rfft_abs).


End Silence.


(** ** Colours from numbers *)

Lemma string_app_assoc (a b c : string) :
  ((a ++ b) ++ c = a ++ (b ++ c))%string.
Proof. induction a as [|x a IH]; cbn; [reflexivity|now rewrite IH]. Qed.

Lemma string_app_nil (a : string) : (a ++ EmptyString)%string = a.
Proof. induction a as [|x a IH]; cbn; [reflexivity|now rewrite IH]. Qed.

Lemma substring_nothing (s : string) : substring 0 0 s = EmptyString.
Proof. destruct s; reflexivity. Qed.

Lemma string_app_length (a b : string) :
  String.length (a ++ b) = (String.length a + String.length b)%nat.
Proof. induction a as [|x a IH]; cbn; [reflexivity|now rewrite IH]. Qed.

Lemma padding_snoc (c : ascii) (n : nat) :
  (padding c n ++ String c EmptyString)%string = padding c (S n).
Proof.
  induction n as [|n IH]; [reflexivity|].
  cbn [padding append]. now rewrite IH.
Qed.

Lemma fixed_zero (k : nat) : fixed k 0 = padding "0" k.
Proof.
  induction k as [|k IH]; [reflexivity|].
  cbn [fixed]. change (0 / 16)%Z with 0%Z. change (0 mod 16)%Z with 0%Z.
  rewrite IH. apply padding_snoc.
Qed.

Lemma fixed_length (k : nat) (n : Z) : String.length (fixed k n) = k.
Proof.
  revert n. induction k as [|k IH]; intro n; [reflexivity|].
  cbn [fixed]. rewrite string_app_length, IH. cbn. lia.
Qed.

Lemma pow16_succ (k : nat) : (16 ^ Z.of_nat (S k) = 16 * 16 ^ Z.of_nat k)%Z.
Proof. rewrite Nat2Z.inj_succ, Z.pow_succ_r; lia. Qed.

Lemma pow16_pos (k : nat) : (0 < 16 ^ Z.of_nat k)%Z.
Proof. apply Z.pow_pos_nonneg; lia. Qed.

(** The digits of [n], padded with zeros to a width [k] they fit in, are the
    [k] low digits of [n]. *)
Lemma hex_of_padded (fuel : nat) :
  forall (n : Z) (k : nat),
    (0 <= n < 16 ^ Z.of_nat fuel)%Z -> (1 <= fuel)%nat ->
    (String.length (hex_of fuel n) <= k)%nat ->
    (padding "0" (k - String.length (hex_of fuel n)) ++ hex_of fuel n)%string
    = fixed k n.
Proof.
  induction fuel as [|f IH]; intros n k Hn Hf Hk; [lia|].
  cbn [hex_of] in *. destruct (n <? 16)%Z eqn:E.
  - apply Z.ltb_lt in E. cbn [String.length] in *.
    destruct k as [|k]; [lia|]. cbn [fixed].
    rewrite (Z.div_small n 16), (Z.mod_small n 16), fixed_zero by lia.
    now replace (S k - 1)%nat with k by lia.
  - apply Z.ltb_ge in E. rewrite pow16_succ in Hn.
    assert (Hf1 : (1 <= f)%nat).
    { destruct f; [cbn in Hn; lia|lia]. }
    rewrite string_app_length in *. cbn [String.length] in *.
    destruct k as [|k]; [lia|]. cbn [fixed].
    rewrite <- (IH (n / 16)%Z k); [| |exact Hf1|lia].
    + rewrite string_app_assoc.
      now replace (S k - (String.length (hex_of f (n / 16)) + 1))%nat
        with (k - String.length (hex_of f (n / 16)))%nat by lia.
    + split; [apply Z.div_pos; lia|].
      apply Z.div_lt_upper_bound; lia.
Qed.

(** The number of digits of [n]. *)
Lemma hex_of_length (fuel : nat) :
  forall (n : Z) (k : nat),
    (16 ^ Z.of_nat k <= n < 16 ^ Z.of_nat (S k))%Z ->
    (n < 16 ^ Z.of_nat fuel)%Z ->
    String.length (hex_of fuel n) = S k.
Proof.
  induction fuel as [|f IH]; intros n k Hn Hf.
  - pose proof (pow16_pos k). cbn in Hf. lia.
  - cbn [hex_of]. rewrite pow16_succ in Hf, Hn.
    pose proof (pow16_pos k) as Hk.
    destruct (n <? 16)%Z eqn:E.
    + apply Z.ltb_lt in E. destruct k as [|k]; [reflexivity|].
      rewrite pow16_succ in Hn. pose proof (pow16_pos k). lia.
    + apply Z.ltb_ge in E. rewrite string_app_length. cbn [String.length].
      destruct k as [|k]; [cbn in Hn; lia|].
      rewrite (IH (n / 16)%Z k); [lia| |apply Z.div_lt_upper_bound; lia].
      rewrite (pow16_succ k) in Hn. rewrite pow16_succ.
      split; [apply Z.div_le_lower_bound; lia
             |apply Z.div_lt_upper_bound; lia].
Qed.

Lemma hex_of_short (fuel : nat) :
  forall (n : Z) (k : nat),
    (n < 16 ^ Z.of_nat k)%Z -> (1 <= k)%nat ->
    (String.length (hex_of fuel n) <= k)%nat.
Proof.
  induction fuel as [|f IH]; intros n k Hn Hk; cbn [hex_of];
    [cbn; lia|].
  destruct (n <? 16)%Z eqn:E; [cbn; lia|].
  apply Z.ltb_ge in E. rewrite string_app_length. cbn [String.length].
  destruct k as [|k]; [lia|]. rewrite pow16_succ in Hn.
  destruct k as [|k]; [cbn in Hn; lia|].
  specialize (IH (n / 16)%Z (S k)).
  assert (String.length (hex_of f (n / 16)) <= S k)%nat; [|lia].
  apply IH; [apply Z.div_lt_upper_bound; lia|lia].
Qed.

(** The fuel [int_to_hex] gives is enough. *)
Lemma enough_fuel (n : Z) :
  (0 <= n)%Z -> (n < 16 ^ Z.of_nat (S (Z.to_nat (Z.log2 n))))%Z.
Proof.
  intro Hn. rewrite Nat2Z.inj_succ, Z2Nat.id by apply Z.log2_nonneg.
  destruct (Z.eq_dec n 0) as [->|Hne]; [reflexivity|].
  destruct (Z.log2_spec n) as [_ H]; [lia|].
  eapply Z.lt_le_trans; [exact H|].
  apply Z.pow_le_mono_l. lia.
Qed.

Lemma fixed_app (a b : nat) :
  forall n : Z,
    fixed (a + b) n = (fixed a (n / 16 ^ Z.of_nat b) ++ fixed b n)%string.
Proof.
  induction b as [|b IH]; intro n.
  - rewrite Nat.add_0_r. cbn [fixed Z.of_nat]. rewrite Z.pow_0_r, Z.div_1_r.
    now rewrite string_app_nil.
  - rewrite Nat.add_succ_r. cbn [fixed]. rewrite IH, string_app_assoc.
    pose proof (pow16_pos b).
    rewrite Z.div_div by lia.
    now rewrite <- pow16_succ.
Qed.

(** The text of a number that is not negative. *)
Lemma int_to_hex_nonneg (i : Z) :
  (0 <= i)%Z ->
  int_to_hex i =
    (padding "0" (6 - String.length (hex_of (S (Z.to_nat (Z.log2 i))) i))
     ++ hex_of (S (Z.to_nat (Z.log2 i))) i)%string.
Proof.
  intro Hi. unfold int_to_hex.
  destruct (i <? 0)%Z eqn:E; [apply Z.ltb_lt in E; lia|].
  rewrite Z.abs_eq by exact Hi. reflexivity.
Qed.

Lemma int_to_hex_negative (i : Z) :
  (i < 0)%Z ->
  int_to_hex i =
    String "-"
      (padding "0" (5 - String.length (hex_of (S (Z.to_nat (Z.log2 (- i)))) (- i)))
       ++ hex_of (S (Z.to_nat (Z.log2 (- i)))) (- i))%string.
Proof.
  intro Hi. unfold int_to_hex.
  destruct (i <? 0)%Z eqn:E; [|apply Z.ltb_ge in E; lia].
  rewrite Z.abs_neq by lia. reflexivity.
Qed.

Lemma int_to_hex_small (i : Z) :
  (0 <= i < 16 ^ 6)%Z -> int_to_hex i = fixed 6 i.
Proof.
  intro Hi. rewrite int_to_hex_nonneg by lia.
  apply hex_of_padded; [split; [lia|apply enough_fuel; lia]|lia|].
  apply hex_of_short; [exact (proj2 Hi)|lia].
Qed.

Lemma int_to_hex_large (i : Z) (m : nat) :
  (16 ^ Z.of_nat (5 + m) <= i < 16 ^ Z.of_nat (6 + m))%Z ->
  int_to_hex i = fixed (6 + m) i.
Proof.
  intro Hi. pose proof (pow16_pos (5 + m)) as Hp.
  rewrite int_to_hex_nonneg by lia.
  assert (Hlen : String.length (hex_of (S (Z.to_nat (Z.log2 i))) i)
                 = (6 + m)%nat).
  { apply (hex_of_length _ i (5 + m)); [exact Hi|apply enough_fuel; lia]. }
  rewrite <- (hex_of_padded (S (Z.to_nat (Z.log2 i))) i (6 + m));
    [|split; [lia|apply enough_fuel; lia]|lia|lia].
  rewrite Hlen. now replace (6 - (6 + m))%nat with (6 + m - (6 + m))%nat by lia.
Qed.

Ltac hex_cases a H :=
  let K := fresh in
  assert (K : (a = 0 \/ a = 1 \/ a = 2 \/ a = 3 \/ a = 4 \/ a = 5 \/ a = 6 \/
               a = 7 \/ a = 8 \/ a = 9 \/ a = 10 \/ a = 11 \/ a = 12 \/
               a = 13 \/ a = 14 \/ a = 15)%Z) by lia;
  clear H;
  repeat (destruct K as [K|K]; [subst a|]); [..|subst a].

(** Two digits read back. *)
Lemma int_of_two_digits (a b : Z) :
  (0 <= a < 16)%Z -> (0 <= b < 16)%Z ->
  int_of_str (String (hex_digit a) (String (hex_digit b) EmptyString)) 16
  = inr (16 * a + b)%Z.
Proof.
  intros Ha Hb. hex_cases a Ha; hex_cases b Hb; reflexivity.
Qed.

(** A sign and one digit read back. *)
Lemma int_of_signed_digit (a : Z) :
  (0 <= a < 16)%Z ->
  int_of_str (String "-" (String (hex_digit a) EmptyString)) 16
  = inr (- a)%Z.
Proof. intros Ha. hex_cases a Ha; reflexivity. Qed.

Ltac digit_range :=
  match goal with
  | |- (0 <= _ mod 16 < 16)%Z => apply Z.mod_pos_bound; lia
  end.

(** Only the first six characters are read. *)
Lemma hex_to_rgb_six (j : Z) (rest : string) :
  (0 <= j < 16 ^ 6)%Z ->
  hex_to_rgb (fixed 6 j ++ rest) = inr (rgb_bytes j).
Proof.
  intro Hj. cbn [fixed append]. unfold hex_to_rgb, slice2. cbn [substring].
  rewrite ?substring_nothing, !int_of_two_digits by digit_range.
  cbn [ebind]. unfold rgb_bytes.
  change (16 ^ 6)%Z with 16777216%Z in Hj.
  apply f_equal, rgb_eq; Z.div_mod_to_equations; lia.
Qed.

Lemma hex_to_rgb_signed (j : Z) (rest : string) :
  (0 <= j < 16 ^ 5)%Z ->
  hex_to_rgb (String "-" (fixed 5 j ++ rest)) = inr (signed_bytes j).
Proof.
  intro Hj. cbn [fixed append]. unfold hex_to_rgb, slice2. cbn [substring].
  rewrite ?substring_nothing, int_of_signed_digit, !int_of_two_digits
    by digit_range.
  cbn [ebind]. unfold signed_bytes.
  change (16 ^ 5)%Z with 1048576%Z in Hj.
  apply f_equal, rgb_eq; Z.div_mod_to_equations; lia.
Qed.

Lemma int_to_hex_negative_small (i : Z) :
  (- 16 ^ 5 < i < 0)%Z -> int_to_hex i = String "-" (fixed 5 (- i)).
Proof.
  intro Hi. rewrite int_to_hex_negative by lia. f_equal.
  apply hex_of_padded; [split; [lia|apply enough_fuel; lia]|lia|].
  apply hex_of_short; lia.
Qed.

Lemma int_to_hex_negative_large (i : Z) (m : nat) :
  (16 ^ Z.of_nat (4 + m) <= - i < 16 ^ Z.of_nat (5 + m))%Z ->
  int_to_hex i = String "-" (fixed (5 + m) (- i)).
Proof.
  intro Hi. pose proof (pow16_pos (4 + m)) as Hp.
  rewrite int_to_hex_negative by lia. f_equal.
  assert (Hlen : String.length (hex_of (S (Z.to_nat (Z.log2 (- i)))) (- i))
                 = (5 + m)%nat).
  { apply (hex_of_length _ (- i)%Z (4 + m)); [exact Hi|apply enough_fuel; lia]. }
  rewrite <- (hex_of_padded (S (Z.to_nat (Z.log2 (- i)))) (- i)%Z (5 + m));
    [|split; [lia|apply enough_fuel; lia]|lia|lia].
  rewrite Hlen. now replace (5 - (5 + m))%nat with (5 + m - (5 + m))%nat by lia.
Qed.

Lemma leading_digits_range (k m : nat) (i : Z) :
  (0 <= i < 16 ^ Z.of_nat (k + m))%Z ->
  (0 <= i / 16 ^ Z.of_nat m < 16 ^ Z.of_nat k)%Z.
Proof.
  intro Hi. pose proof (pow16_pos m).
  rewrite Nat2Z.inj_add, Z.pow_add_r in Hi by lia.
  split; [apply Z.div_pos; lia|apply Z.div_lt_upper_bound; lia].
Qed.

(** X14.  For every [i] from 0 to HEX_MAX, [int_to_hex i] is six characters
    long and [hex_to_rgb] reads it back as the three bytes of [i], most
    significant first: each lies in 0..255 and together they give [i]
    back. *)
Theorem hex_round_trip (i : Z) :
  (0 <= i <= HEX_MAX)%Z ->
  String.length (int_to_hex i) = 6%nat /\
  hex_to_rgb (int_to_hex i) = inr (rgb_bytes i) /\
  rgb_ok (rgb_bytes i) /\
  (let '(r0, g0, b0) := rgb_bytes i in 65536 * r0 + 256 * g0 + b0 = i)%Z.
Proof.
  unfold HEX_MAX. intro Hi.
  assert (Hi' : (0 <= i < 16 ^ 6)%Z) by (change (16 ^ 6)%Z with 16777216%Z; lia).
  rewrite (int_to_hex_small i Hi').
  split; [apply fixed_length|].
  split; [rewrite <- (string_app_nil (fixed 6 i)); now apply hex_to_rgb_six|].
  unfold rgb_bytes, rgb_ok, channel_ok.
  repeat split; Z.div_mod_to_equations; lia.
Qed.

(** X15.  A number above HEX_MAX is not clamped.  With [6 + m] hexadecimal
    digits its text is [6 + m] characters long, [hex_to_rgb] reads the first
    six only, and the colour is that of [i / 16 ^ m]: the low digits are
    dropped, not the high ones. *)
Theorem hex_overflow_keeps_leading_digits (i : Z) (m : nat) :
  (16 ^ Z.of_nat (5 + m) <= i < 16 ^ Z.of_nat (6 + m))%Z ->
  String.length (int_to_hex i) = (6 + m)%nat /\
  hex_to_rgb (int_to_hex i) = inr (rgb_bytes (i / 16 ^ Z.of_nat m)) /\
  rgb_ok (rgb_bytes (i / 16 ^ Z.of_nat m)).
Proof.
  intro Hi. pose proof (pow16_pos (5 + m)) as Hp.
  rewrite (int_to_hex_large i m Hi).
  split; [apply fixed_length|].
  assert (Hj : (0 <= i / 16 ^ Z.of_nat m < 16 ^ 6)%Z).
  { apply (leading_digits_range 6 m). lia. }
  split; [rewrite fixed_app; now apply hex_to_rgb_six|].
  revert Hj. generalize (i / 16 ^ Z.of_nat m)%Z. intros j Hj.
  change (16 ^ 6)%Z with 16777216%Z in Hj.
  unfold rgb_bytes, rgb_ok, channel_ok.
  repeat split; Z.div_mod_to_equations; lia.
Qed.

(** X16.  A negative number is read back without an error.  Its text is a
    minus sign and at least five digits, so the first pair read is the sign
    with one digit: the red channel is minus the first digit, never
    positive, and the other two channels are the next four digits. *)
Theorem hex_of_negative (i : Z) (m : nat) :
  (i < 0)%Z ->
  (m = 0%nat /\ - i < 16 ^ 5 \/
   16 ^ Z.of_nat (4 + m) <= - i < 16 ^ Z.of_nat (5 + m))%Z ->
  hex_to_rgb (int_to_hex i) = inr (signed_bytes (- i / 16 ^ Z.of_nat m)).
Proof.
  intros Hi [[-> Hs]|Hl].
  - rewrite int_to_hex_negative_small by lia.
    rewrite <- (string_app_nil (fixed 5 (- i))).
    change (16 ^ Z.of_nat 0)%Z with 1%Z. rewrite Z.div_1_r.
    apply hex_to_rgb_signed. lia.
  - pose proof (pow16_pos (4 + m)).
    rewrite (int_to_hex_negative_large i m Hl), fixed_app.
    apply hex_to_rgb_signed. apply (leading_digits_range 5 m). lia.
Qed.




Section ColourOfNorm.

Context (fmul : Q -> Q -> option Q).


(** X18.  When the float product [x] of [norm] and [HEX_MAX] lies between 0
    and [HEX_MAX] (as it does for every [norm] between 0 and 1, both ends
    being doubles), [norm_to_rgb] gives three channels in 0..255 that pack
    to [floor x]. *)
Theorem norm_to_rgb_in_range (norm x : Q) :
  fmul norm (inject_Z HEX_MAX) = Some x ->
  0 <= x <= inject_Z HEX_MAX ->
  exists r0 g0 b0 : Z,
    norm_to_rgb fmul norm = inr (r0, g0, b0) /\
    rgb_ok (r0, g0, b0) /\
    (65536 * r0 + 256 * g0 + b0 = Qfloor x)%Z.
Proof.
  intros Hx Hrange. unfold norm_to_rgb. rewrite Hx.
  rewrite int_floor by apply Hrange.
  assert (Hi : (0 <= Qfloor x < 16 ^ 6)%Z).
  { destruct Hrange as [Ha Hb]. apply Qfloor_resp_le in Ha, Hb.
    rewrite Qfloor_Z in Hb. change (Qfloor 0) with 0%Z in Ha.
    unfold HEX_MAX in Hb. change (16 ^ 6)%Z with 16777216%Z. lia. }
  revert Hi. generalize (Qfloor x). intros i Hi.
  rewrite (int_to_hex_small i Hi), <- (string_app_nil (fixed 6 i)).
  rewrite (hex_to_rgb_six i EmptyString Hi).
  change (16 ^ 6)%Z with 16777216%Z in Hi.
  exists (i / 65536)%Z, ((i / 256) mod 256)%Z, (i mod 256)%Z.
  split; [reflexivity|].
  unfold rgb_ok, channel_ok. repeat split; Z.div_mod_to_equations; lia.
Qed.

End ColourOfNorm.

(** [int] raises nothing but ValueError. *)
Lemma int_of_str_error (s : string) (base : Z) (e : exn) :
  int_of_str s base = inl e -> e = ValueError.
Proof.
  unfold int_of_str. intro H.
  repeat match type of H with
         | context [match ?x with _ => _ end] => destruct x
         end;
    congruence.
Qed.

Lemma slice_past_end (h : string) :
  (String.length h <= 4)%nat -> slice2 h 4 = EmptyString.
Proof.
  intro H. unfold slice2.
  do 5 (destruct h as [|? h]; [reflexivity|]). cbn in H. lia.
Qed.

(** X19.  [hex_to_rgb] raises ValueError on every text of fewer than five
    characters: the last slice is then empty. *)
Theorem hex_to_rgb_short (h : string) :
  (String.length h <= 4)%nat -> hex_to_rgb h = inl ValueError.
Proof.
  intro H. unfold hex_to_rgb. rewrite (slice_past_end h H).
  destruct (int_of_str (slice2 h 0) 16) as [e|r0] eqn:E0; cbn [ebind];
    [now rewrite (int_of_str_error _ _ _ E0)|].
  destruct (int_of_str (slice2 h 2) 16) as [e|g0] eqn:E2; cbn [ebind];
    [now rewrite (int_of_str_error _ _ _ E2)|].
  reflexivity.
Qed.

Lemma hex_round_trip_witness :
  String.length (int_to_hex 16744448) = 6%nat /\
  hex_to_rgb (int_to_hex 16744448) = inr (rgb_bytes 16744448) /\
  rgb_ok (rgb_bytes 16744448) /\
  (let '(r0, g0, b0) := rgb_bytes 16744448 in
   65536 * r0 + 256 * g0 + b0 = 16744448)%Z.
Proof. apply (hex_round_trip 16744448). unfold HEX_MAX. lia. Defined.

Lemma hex_overflow_keeps_leading_digits_witness :
  String.length (int_to_hex 16777216) = 7%nat /\
  hex_to_rgb (int_to_hex 16777216) = inr (rgb_bytes (16777216 / 16 ^ 1)) /\
  rgb_ok (rgb_bytes (16777216 / 16 ^ 1)).
Proof.
  apply (hex_overflow_keeps_leading_digits 16777216 1). cbn. lia.
Defined.

Lemma hex_of_negative_witness :
  hex_to_rgb (int_to_hex (-255)) = inr (signed_bytes (- -255 / 16 ^ 0)).
Proof.
  apply (hex_of_negative (-255) 0); [lia|left; split; [reflexivity|cbn; lia]].
Defined.

Lemma norm_to_rgb_in_range_witness :
  exists r0 g0 b0 : Z,
    norm_to_rgb exact_product (1 # 2) = inr (r0, g0, b0) /\
    rgb_ok (r0, g0, b0) /\
    (65536 * r0 + 256 * g0 + b0 = Qfloor (16777215 # 2))%Z.
Proof.
  apply (norm_to_rgb_in_range exact_product (1 # 2) (16777215 # 2));
    [reflexivity|split; discriminate].
Defined.

Lemma hex_to_rgb_short_witness : hex_to_rgb "ff80" = inl ValueError.
Proof. apply (hex_to_rgb_short "ff80"). simpl. lia. Defined.
